(** * Supervised word sense disambiguation (SupervisedWSD/NaiveBayes.ipynb)

    A shallow embedding of the notebook's data pipeline: corpus loading
    (cell 6), token normalisation and context windows (cells 11 and 13),
    feature records (cell 17), the co-occurrence vocabulary (cell 19), the
    per-word split (cell 23) and the merged split (cell 31).

    Conventions.
    - Python [int] values that may be negative are [Z]; lengths and counts
      are [nat].
    - A Python [str] is a [string]; the character classes below are those of
      ASCII text (the Senseval files are ASCII).
    - A computation that may raise [IndexError] returns an [option]; [None]
      stands for the raised exception.
    - Python objects that are mutated after being stored (the instances of
      cell 6) live in an explicit store and are referred to by address. *)

From Stdlib Require Import ZArith Ascii String List Lia.
From stdpp Require Import base option list strings sorting.

Open Scope string_scope.
Open Scope list_scope.

(** ** Python sequence primitives *)

Module Py.

(** Clamping of a slice bound [i] for a sequence of length [n]:
    negative bounds count from the end, and every bound is clipped to
    the range [0..n]. *)
Definition slice_bound (i : Z) (n : nat) : nat :=
  if (i <? 0)%Z then Z.to_nat (Z.max 0 (i + Z.of_nat n))
  else Z.to_nat (Z.min i (Z.of_nat n)).

(** [l[:i]] *)
Definition slice_to {A} (i : Z) (l : list A) : list A :=
  take (slice_bound i (length l)) l.

(** [l[i:]] *)
Definition slice_from {A} (i : Z) (l : list A) : list A :=
  drop (slice_bound i (length l)) l.

(** [l[i]]: negative indices count from the end, an index out of range
    raises [IndexError]. *)
Definition index {A} (l : list A) (i : Z) : option A :=
  let n := Z.of_nat (length l) in
  if (i <? 0)%Z then
    if (i + n <? 0)%Z then None else l !! Z.to_nat (i + n)
  else l !! Z.to_nat i.

(** [int(n * 0.2)] for a length [n]: the product truncated towards
    zero.  On binary64 floats the product of a length below 2^50 with
    the double nearest to 0.2 truncates to the same integer as the
    exact quotient, which is what is computed here. *)
Definition int_fifth (n : nat) : nat := (n * 2) / 10.

(** [x in l] for a list or tuple of strings. *)
Definition mem (x : string) (l : list string) : bool :=
  bool_decide (x ∈ l).

(** [s.startswith(p)] *)
Fixpoint starts_with (p s : string) : bool :=
  match p, s with
  | EmptyString, _ => true
  | String a p', String b s' => if Ascii.eqb a b then starts_with p' s' else false
  | String _ _, EmptyString => false
  end.

(** [p in s] for two strings: [p] occurs in [s] as a contiguous
    substring. *)
Fixpoint substring_of (p s : string) : bool :=
  starts_with p s ||
  match s with
  | EmptyString => false
  | String _ s' => substring_of p s'
  end.

(** [s.split('.')[0]]: the part of [s] before its first full stop, or the
    whole of [s] when it has none. *)
Fixpoint split_dot_head (s : string) : string :=
  match s with
  | EmptyString => EmptyString
  | String c s' => if Ascii.eqb c "."%char then EmptyString else String c (split_dot_head s')
  end.

End Py.

(** ** Characters: [str.lower], [string.punctuation] and the classes of the
    regular expression [\w+|[^\w\s]+] *)

Module Chars.

Definition code (c : ascii) : nat := nat_of_ascii c.

Definition between (lo hi n : nat) : bool := (lo <=? n)%nat && (n <=? hi)%nat.

Definition is_upper (c : ascii) : bool := between 65 90 (code c).
Definition is_lower (c : ascii) : bool := between 97 122 (code c).
Definition is_digit (c : ascii) : bool := between 48 57 (code c).

(** [\w]: letters, digits and the underscore. *)
Definition is_word (c : ascii) : bool :=
  is_upper c || is_lower c || is_digit c || (code c =? 95)%nat.

(** [\s]: tab, line feed, vertical tab, form feed, carriage return, the
    four separators 28..31 and the space. *)
Definition is_space (c : ascii) : bool :=
  between 9 13 (code c) || between 28 32 (code c).

(** [string.punctuation]: the 32 printable ASCII characters that are
    neither letters, digits nor the space, that is the codes 33..47,
    58..64, 91..96 and 123..126 (the underscore, 95, is one of them). *)
Definition is_punctuation (c : ascii) : bool :=
  between 33 47 (code c) || between 58 64 (code c)
  || between 91 96 (code c) || between 123 126 (code c).

Definition lower_char (c : ascii) : ascii :=
  if is_upper c then ascii_of_nat (code c + 32) else c.

(** [s.lower()] *)
Fixpoint lower (s : string) : string :=
  match s with
  | EmptyString => EmptyString
  | String c s' => String (lower_char c) (lower s')
  end.

(** [s.translate(translator)] with
    [translator = str.maketrans('', '', string.punctuation)]: every
    punctuation character is deleted. *)
Fixpoint strip_punctuation (s : string) : string :=
  match s with
  | EmptyString => EmptyString
  | String c s' =>
      if is_punctuation c then strip_punctuation s'
      else String c (strip_punctuation s')
  end.

End Chars.

(** ** [WordPunctTokenizer]: all matches of [\w+|[^\w\s]+] *)

Module WordPunct.

Inductive cclass := Word | Punct | Space.

Definition classify (c : ascii) : cclass :=
  if Chars.is_word c then Word
  else if Chars.is_space c then Space
  else Punct.

Definition cclass_eqb (a b : cclass) : bool :=
  match a, b with
  | Word, Word | Punct, Punct | Space, Space => true
  | _, _ => false
  end.

(** The successive maximal runs of word characters and of characters
    that are neither word characters nor white space; white space
    separates runs and is discarded.  The run that starts at [c] is [c]
    alone when the next character is of another class, and [c] followed
    by the run starting at the next character otherwise. *)
Fixpoint tokenize (s : string) : list string :=
  match s with
  | EmptyString => []
  | String c s' =>
      let rest := tokenize s' in
      match classify c with
      | Space => rest
      | k =>
          match s' with
          | EmptyString => [String c EmptyString]
          | String c' _ =>
              if cclass_eqb (classify c') k then
                match rest with
                | t :: ts => String c t :: ts
                | [] => [String c EmptyString]
                end
              else String c EmptyString :: rest
          end
      end
  end.

End WordPunct.

(** ** Cell 11: [tokenize] *)

(** A context entry is a (token, POS tag) pair. *)
Definition tagged := (string * string)%type.

(** [tokenizer.tokenize(w[0])[0].lower().translate(translator)]: the first
    piece of the token, lower-cased, punctuation deleted.  Indexing the
    empty list of pieces raises [IndexError]. *)
Definition norm_word (w : string) : option string :=
  match WordPunct.tokenize w with
  | [] => None
  | piece :: _ => Some (Chars.strip_punctuation (Chars.lower piece))
  end.

(** The list [filters] of the two quote artifacts (two back quotes, two
    single quotes) is assigned in cell 11 and read nowhere. *)
Definition filters : list string := ["``"; "''"].

(** The loop of [tokenize(text)]: entries whose normalised word is empty
    are skipped, the others are appended in order; the first entry
    without a piece aborts the whole call. *)
Fixpoint tokenize (text : list tagged) : option (list tagged) :=
  match text with
  | [] => Some []
  | w :: text' =>
      nw ← norm_word w.1;
      tokenized_text ← tokenize text';
      Some (if (1 <=? String.length nw)%nat then (nw, w.2) :: tokenized_text
            else tokenized_text)
  end.

(** ** Cell 13: [extract_context] *)

Definition extract_context (target_position : Z) (text : list tagged) (context : Z)
  : option (list tagged * list tagged) :=
  let text_wo_target_left := Py.slice_to target_position text in
  let text_wo_target_right := Py.slice_from (target_position + 1) text in
  text_wo_target_left ← tokenize text_wo_target_left;
  text_wo_target_right ← tokenize text_wo_target_right;
  Some (Py.slice_from (- context) text_wo_target_left,
        Py.slice_to context text_wo_target_right).

(** ** The corpus reader's instances *)

(** The [senses] attribute of an instance holds a tuple of sense ids when
    the corpus reader creates it; cell 6 later assigns a single sense id, a
    plain string, to the same attribute. *)
Inductive senses_val :=
| SensesTuple (ids : list string)
| SensesStr (id : string).

Module SensevalInstance.

Record t := mk {
  word : string;
  position : Z;
  context : list tagged;
  senses : senses_val
}.

(** [inst.senses = v] *)
Definition set_senses (v : senses_val) (inst : t) : t :=
  mk (word inst) (position inst) (context inst) v.

End SensevalInstance.

Abbreviation instance := SensevalInstance.t.

(** [for sense in senses]: a tuple yields its components, a string yields
    its characters as one-character strings. *)
Definition senses_iter (v : senses_val) : list string :=
  match v with
  | SensesTuple ids => ids
  | SensesStr id => map (fun c => String c EmptyString) (list_ascii_of_string id)
  end.

(** [label_sense in instance.senses]: membership in a tuple, substring
    containment in a string. *)
Definition sense_in (label_sense : string) (v : senses_val) : bool :=
  match v with
  | SensesTuple ids => Py.mem label_sense ids
  | SensesStr id => Py.substring_of label_sense id
  end.

(** A label is a (word, sense) pair. *)
Definition label := (string * string)%type.

(** ** Cell 6: loading the corpus *)

Module Loader.

(** The objects created by [copy.deepcopy] live in [heap], addressed by
    their index; the Python list [instances] holds addresses, so that
    two entries may refer to one object. *)
Record state := mkState {
  heap : list instance;
  instances : list nat;
  labels_classes : list label
}.

Definition init : state := mkState [] [] [].

(** One round of [for sense in senses]:
    [temp_instance.senses = sense; instances.append(temp_instance);
     labels_classes.append((i.word, sense))]. *)
Definition add_sense (i : instance) (temp_instance : nat) (st : state) (sense : string)
  : state :=
  mkState (alter (SensevalInstance.set_senses (SensesStr sense)) temp_instance (heap st))
          (instances st ++ [temp_instance])
          (labels_classes st ++ [(SensevalInstance.word i, sense)]).

(** The body of [for i in senseval.instances(file)]: the deep copy is
    allocated once, before the loop over the senses. *)
Definition load_instance (st : state) (i : instance) : state :=
  let senses := senses_iter (SensevalInstance.senses i) in
  let temp_instance := length (heap st) in
  let st := mkState (heap st ++ [i]) (instances st) (labels_classes st) in
  foldl (add_sense i temp_instance) st senses.

(** [for file in files_list: for i in senseval.instances(file): ...] *)
Definition load (files : list (list instance)) : state :=
  foldl (foldl load_instance) init files.

(** The objects the entries of [instances] refer to, in list order, as
    every later cell reads them. *)
Definition stored (st : state) : list instance :=
  omap (fun a => heap st !! a) (instances st).

(** [label_sets = set(labels_classes)]: the distinct labels.  Python
    leaves the iteration order of a set unspecified; the enumeration
    used here is one possible order, and no result below depends on
    it. *)
Definition label_sets (st : state) : list label :=
  remove_dups (labels_classes st).

End Loader.

(** ** Cell 17: [extract_features] *)

Module Features.

(** The dictionary with the keys ['word'], ['co-occ'], ['context'] and
    ['pos_context']. *)
Record t := mk {
  word : string;
  co_occ : list nat;
  context : list string;
  pos_context : list string
}.

End Features.

Definition extract_features (targetword : string) (left_ctxt right_ctxt : list tagged)
    (co_occ_vector : list string) : Features.t :=
  let context_text := map fst left_ctxt ++ map fst right_ctxt in
  let context_pos := map snd left_ctxt ++ map snd right_ctxt in
  let co_occurence_features :=
    map (fun i => if Py.mem i context_text then 1 else 0) co_occ_vector in
  Features.mk (Py.split_dot_head targetword) co_occurence_features
              context_text context_pos.

(** Cell 10. *)
Definition context : Z := 2.
Definition num_co_ocurrences : nat := 12.

(** ** [nltk.probability.FreqDist], a [collections.Counter] *)

Module FreqDist.

(** The items of the counter, in insertion order. *)
Definition t := list (string * nat).

(** [d[x] = d.get(x, 0) + 1]: an existing key keeps its place, a new key
    goes last. *)
Fixpoint incr (x : string) (d : t) : t :=
  match d with
  | [] => [(x, 1)]
  | (y, n) :: d' =>
      if String.eqb y x then (y, S n) :: d' else (y, n) :: incr x d'
  end.

(** [FreqDist(samples)] *)
Definition of_samples (samples : list string) : t :=
  foldl (fun d x => incr x d) [] samples.

(** Insertion in a list sorted by descending count, in front of the
    first item whose count is not larger. *)
Fixpoint insert (e : string * nat) (sorted : t) : t :=
  match sorted with
  | [] => [e]
  | e' :: rest =>
      if (e.2 <? e'.2)%nat then e' :: insert e rest else e :: e' :: rest
  end.

(** [sorted(d.items(), key=itemgetter(1), reverse=True)]: a stable sort,
    items of equal count keep their insertion order. *)
Definition sorted_desc (d : t) : t := foldr insert [] d.

(** [d.most_common(n)], that is
    [heapq.nlargest(n, d.items(), key=itemgetter(1))], which returns
    what [sorted(..., reverse=True)[:n]] returns. *)
Definition most_common (n : nat) (d : t) : t := take n (sorted_desc d).

End FreqDist.

(** ** Dictionaries keyed by strings, in insertion order *)

Module Dict.

Definition t (V : Type) := list (string * V).

Fixpoint get {V} (d : t V) (k : string) : option V :=
  match d with
  | [] => None
  | (k', v) :: d' => if String.eqb k' k then Some v else get d' k
  end.

(** [d[k] = v] *)
Fixpoint set {V} (k : string) (v : V) (d : t V) : t V :=
  match d with
  | [] => [(k, v)]
  | (k', v') :: d' =>
      if String.eqb k' k then (k', v) :: d' else (k', v') :: set k v d'
  end.

(** [d.keys()] *)
Definition keys {V} (d : t V) : list string := map fst d.

(** [d[k]] for the list-valued dictionaries of the notebook, whose keys
    are all created in cell 19; an absent key reads as no element. *)
Definition get_list {A} (d : t (list A)) (k : string) : list A :=
  default [] (get d k).

(** [d[k] += l] *)
Definition extend {A} (k : string) (l : list A) (d : t (list A)) : t (list A) :=
  set k (get_list d k ++ l) d.

End Dict.

(** ** [random.shuffle] *)

Module Random.

(** The generator is a supply of raw draws. *)
Definition state := list nat.

(** [randbelow(n)], for [n > 0]: a number below [n]. *)
Definition randbelow (n : nat) (g : state) : nat * state :=
  (hd 0 g mod n, tl g).

(** [x[i], x[j] = x[j], x[i]] *)
Definition swap {A} (i j : nat) (x : list A) : list A :=
  match x !! i, x !! j with
  | Some a, Some b => <[j:=a]> (<[i:=b]> x)
  | _, _ => x
  end.

(** The rounds [i = n, n - 1, ..., 1] of the loop
    [for i in reversed(range(1, len(x))): j = randbelow(i + 1);
     x[i], x[j] = x[j], x[i]]. *)
Fixpoint shuffle_from {A} (n : nat) (x : list A) (g : state) : list A * state :=
  match n with
  | 0 => (x, g)
  | S n' =>
      let '(j, g') := randbelow (S n) g in
      shuffle_from n' (swap n j x) g'
  end.

(** [random.shuffle(x)]: the loop runs from [len(x) - 1] down to 1. *)
Definition shuffle {A} (x : list A) (g : state) : list A * state :=
  shuffle_from (length x - 1) x g.

End Random.

(** ** Cells 19, 23 and 31 *)

(** A labelled feature record, as the classifier receives it. *)
Definition item := (Features.t * label)%type.

Section Pipeline.

(** [stopwords.words('english')], a word list shipped with NLTK. *)
Variable stopwords : list string.

(** [[i[0] for i in ctx if i[0] not in stopwords.words('english')
      and len(i[0]) > 1]] *)
Definition content_words (ctx : list tagged) : list string :=
  map fst
    (filter (fun i => negb (Py.mem i.1 stopwords) && (1 <? String.length i.1)%nat = true)
            ctx).

(** Cell 19, the loop [for instance in instances] for one [classword],
    with [lemmas_for_class] as accumulator. *)
Fixpoint lemmas_loop (classword : string) (instances : list instance)
    (lemmas_for_class : list string) : option (list string) :=
  match instances with
  | [] => Some lemmas_for_class
  | inst :: rest =>
      if String.eqb classword (SensevalInstance.word inst) then
        '(left_context, right_context) ←
          extract_context (SensevalInstance.position inst)
                          (SensevalInstance.context inst) context;
        lemmas_loop classword rest
          (lemmas_for_class ++ content_words left_context
                            ++ content_words right_context)
      else lemmas_loop classword rest lemmas_for_class
  end.

(** Cell 19, the vocabulary of one [classword]. *)
Definition cooccurrences_of (classword : string) (instances : list instance)
  : option (list string) :=
  lemmas_for_class ← lemmas_loop classword instances [];
  let dist := FreqDist.of_samples lemmas_for_class in
  let cooccurrences := map fst (FreqDist.most_common num_co_ocurrences dist) in
  Some (take num_co_ocurrences cooccurrences).

(** The three dictionaries that cell 19 fills. *)
Record dicts := mkDicts {
  co_occurrences_per_classword : Dict.t (list string);
  train_set_per_class : Dict.t (list item);
  test_set_per_class : Dict.t (list item)
}.

(** Cell 19, the loop [for classword in set([l[0] for l in label_sets])]. *)
Fixpoint cell19_loop (classwords : list string) (instances : list instance)
    (d : dicts) : option dicts :=
  match classwords with
  | [] => Some d
  | classword :: rest =>
      cooccurrences ← cooccurrences_of classword instances;
      cell19_loop rest instances
        (mkDicts (Dict.set classword cooccurrences (co_occurrences_per_classword d))
                 (Dict.set classword [] (train_set_per_class d))
                 (Dict.set classword [] (test_set_per_class d)))
  end.

Definition cell19 (label_sets : list label) (instances : list instance) : option dicts :=
  cell19_loop (remove_dups (map fst label_sets)) instances (mkDicts [] [] []).

(** Cell 23, the test of the inner loop. *)
Definition selected (l : label) (inst : instance) : bool :=
  String.eqb l.1 (SensevalInstance.word inst)
  && sense_in l.2 (SensevalInstance.senses inst).

(** Cell 23, the body of the inner loop for a selected instance. *)
Definition feature_of (l : label) (co_occ_vector : list string) (inst : instance)
  : option item :=
  w ← Py.index (SensevalInstance.context inst) (SensevalInstance.position inst);
  let word := w.1 in
  '(left_ctxt, right_ctxt) ←
    extract_context (SensevalInstance.position inst)
                    (SensevalInstance.context inst) context;
  Some (extract_features word left_ctxt right_ctxt co_occ_vector, l).

(** Cell 23, the loop [for instance in instances] for one label, with
    [feature_sets] as accumulator. *)
Fixpoint feature_loop (l : label) (co_occ_vector : list string)
    (instances : list instance) (feature_sets : list item) : option (list item) :=
  match instances with
  | [] => Some feature_sets
  | inst :: rest =>
      if selected l inst then
        f ← feature_of l co_occ_vector inst;
        feature_loop l co_occ_vector rest (feature_sets ++ [f])
      else feature_loop l co_occ_vector rest feature_sets
  end.

(** Cell 23, the split of the shuffled [feature_sets]:
    [sample = int(len(feature_sets)*0.2)],
    [training_set = feature_sets[sample+1:]],
    [test_set = feature_sets[:sample]]. *)
Definition per_word_split {A} (feature_sets : list A) : list A * list A :=
  let sample := Z.of_nat (Py.int_fifth (length feature_sets)) in
  let training_set := Py.slice_from (sample + 1) feature_sets in
  let test_set := Py.slice_to sample feature_sets in
  (training_set, test_set).

(** Cell 23, the loop [for label in label_sets]; the generator and the
    two dictionaries of sets are threaded through. *)
Fixpoint cell23_loop (label_sets : list label) (instances : list instance)
    (d : dicts) (g : Random.state) : option (dicts * Random.state) :=
  match label_sets with
  | [] => Some (d, g)
  | l :: rest =>
      let label_word := l.1 in
      feature_sets ←
        feature_loop l (Dict.get_list (co_occurrences_per_classword d) label_word)
                     instances [];
      let '(feature_sets, g) := Random.shuffle feature_sets g in
      let '(training_set, test_set) := per_word_split feature_sets in
      cell23_loop rest instances
        (mkDicts (co_occurrences_per_classword d)
                 (Dict.extend label_word training_set (train_set_per_class d))
                 (Dict.extend label_word test_set (test_set_per_class d)))
        g
  end.

(** Cell 31, [sub_train_set] and [sub_test_set]: the values of a
    dictionary, concatenated in key order. *)
Definition merge_values {A} (d : Dict.t (list A)) : list A :=
  foldl (fun acc key => acc ++ Dict.get_list d key) [] (Dict.keys d).

(** Cell 31, from [total = sub_train_set + sub_test_set] to
    [test_set = total[:divide]]:
    [random.shuffle(total); divide = int(len(total)*0.2);
     train_set = total[divide:]; test_set = total[:divide]]. *)
Definition merged_split {A} (sub_train_set sub_test_set : list A) (g : Random.state)
  : list A * list A :=
  let total := sub_train_set ++ sub_test_set in
  let '(total, _) := Random.shuffle total g in
  let divide := Z.of_nat (Py.int_fifth (length total)) in
  let train_set := Py.slice_from divide total in
  let test_set := Py.slice_to divide total in
  (train_set, test_set).

(** The data preparation of cell 31: the merged (training, test) pair.
    The two lines that follow in the cell, [NaiveBayesClassifier.train]
    and the print of [nltk.classify.accuracy], are calls into NLTK and are
    not part of this embedding; nothing below speaks about them. *)
Definition cell31 (d : dicts) (g : Random.state) : list item * list item :=
  merged_split (merge_values (train_set_per_class d))
               (merge_values (test_set_per_class d)) g.

(** The data preparation of cells 6 to 31 in sequence, up to the sets
    handed to the classifier: the per-word dictionaries and the merged
    (training, test) pair.  The classifier calls of cells 29 and 31 are
    left out. *)
Definition notebook (files : list (list instance)) (g : Random.state)
  : option (dicts * (list item * list item)) :=
  let st := Loader.load files in
  let instances := Loader.stored st in
  let label_sets := Loader.label_sets st in
  d ← cell19 label_sets instances;
  '(d, g) ← cell23_loop label_sets instances d g;
  Some (d, cell31 d g).

End Pipeline.

(** ** Notions used to state the properties *)

(** A token is blank when all its characters are white space; the empty
    token is blank. *)
Fixpoint blank (w : string) : bool :=
  match w with
  | EmptyString => true
  | String c w' => Chars.is_space c && blank w'
  end.

(** All characters of [s] are of class [k]. *)
Fixpoint all_of_class (k : WordPunct.cclass) (s : string) : bool :=
  match s with
  | EmptyString => true
  | String c s' => WordPunct.cclass_eqb (WordPunct.classify c) k && all_of_class k s'
  end.

(** [s] is empty or starts with a character that is not of class [k]. *)
Definition stops_run (k : WordPunct.cclass) (s : string) : bool :=
  match s with
  | EmptyString => true
  | String c _ => negb (WordPunct.cclass_eqb (WordPunct.classify c) k)
  end.

(** What [tokenize] keeps of one context entry: the normalised first piece
    with the entry's tag, unless the normalised piece is empty. *)
Definition kept (w : tagged) : option tagged :=
  match norm_word w.1 with
  | Some nw => if (1 <=? String.length nw)%nat then Some (nw, w.2) else None
  | None => None
  end.

(** The normalisation of a whole token: lower-cased, punctuation
    deleted, without cutting the token into pieces first. *)
Definition whole_norm (w : string) : string :=
  Chars.strip_punctuation (Chars.lower w).

(** What would be kept of a context entry if the whole token were
    normalised and the entries of [filters] were excluded. *)
Definition whole_kept (w : tagged) : option tagged :=
  let nw := whole_norm w.1 in
  if (String.length nw =? 0)%nat || Py.mem w.1 filters then None
  else Some (nw, w.2).


(** What [instances] holds for one corpus instance once cell 6 has run:
    as many entries as the instance has senses, all of them the same
    object, whose [senses] attribute is the sense assigned last. *)
Definition expansion (i : instance) : list instance :=
  let ids := senses_iter (SensevalInstance.senses i) in
  match last ids with
  | Some id => replicate (length ids) (SensevalInstance.set_senses (SensesStr id) i)
  | None => []
  end.

(** A corpus instance with the two senses [cord] and [phone]. *)
Definition two_sense_instance : instance :=
  SensevalInstance.mk "line-n" 1
    [("telephone", "NN"); ("lines", "NNS"); ("open", "JJ")]
    (SensesTuple ["cord"; "phone"]).

(** Every entry of [instances] is the address of an allocated object. *)
Definition addresses_ok (st : Loader.state) : Prop :=
  Forall (fun a => a < length (Loader.heap st)) (Loader.instances st).

(** An instance of [serve-v] stored with the sense id [SERVE10]. *)
Definition serve10_instance : instance :=
  SensevalInstance.mk "serve-v" 1
    [("they", "PRP"); ("serve", "VBP"); ("dinner", "NN")] (SensesStr "SERVE10").

(** An instance of [bass-n] with one sense and a three-token context
    around the target. *)
Definition bass_instance (l r : string) : instance :=
  SensevalInstance.mk "bass-n" 1 [(l, "NN"); ("bass", "NN"); (r, "NN")]
                      (SensesTuple ["music"]).

(** A corpus of one file with six instances of [bass-n]. *)
Definition bass_corpus : list (list instance) :=
  [[bass_instance "guitar" "player"; bass_instance "double" "solo";
    bass_instance "electric" "line"; bass_instance "funk" "riff";
    bass_instance "jazz" "band"; bass_instance "slap" "sound"]].

(** Draws under which both shuffles of a run on [bass_corpus] leave the
    order as it is: for six records, then for five. *)
Definition identity_draws : Random.state := [5; 4; 3; 2; 1; 4; 3; 2; 1].

(** The number of occurrences of [x] in [l]. *)
Definition occurrences (x : string) (l : list string) : nat :=
  length (filter (fun y => y = x) l).

(** The first occurrence of [a] in [l] comes before every occurrence of
    [b]: [a] is encountered first. *)
Definition first_before (a b : string) (l : list string) : Prop :=
  exists l1 l2, l = l1 ++ a :: l2 /\ (a ∉ l1) /\ (b ∉ l1).

(** The count a frequency distribution records for [x] ([d[x]], which is
    0 for an absent key). *)
Fixpoint count_of (d : FreqDist.t) (x : string) : nat :=
  match d with
  | [] => 0
  | (y, n) :: d' => if String.eqb y x then n else count_of d' x
  end.

(** The order [sorted_desc] establishes between two items of [d]: a
    larger count first, and for equal counts the item inserted first. *)
Definition ranked_before (d : FreqDist.t) (e1 e2 : string * nat) : Prop :=
  (snd e2 < snd e1)
  \/ (snd e1 = snd e2 /\ exists d1 d2, d = d1 ++ e1 :: d2 /\ e2 ∈ d2).

(** The normalised tokens of the two context windows of an instance, left
    window first. *)
Definition window_of (inst : instance) : list string :=
  match extract_context (SensevalInstance.position inst)
                        (SensevalInstance.context inst) context with
  | Some (left_context, right_context) => map fst left_context ++ map fst right_context
  | None => []
  end.

(** The tokens of all context windows of the instances of [classword], in
    the order in which cell 19 encounters them. *)
Definition window_tokens (classword : string) (instances : list instance) : list string :=
  filter (fun inst => SensevalInstance.word inst = classword) instances ≫= window_of.

(** No context of these instances has a blank token. *)
Definition tokenizable (instances : list instance) : Prop :=
  Forall (fun inst => Forall (fun w => blank w.1 = false) (SensevalInstance.context inst))
         instances.

(** A small corpus for [bass-n] in which [player] occurs twice and
    [guitar] and [sound] once each. *)
Definition bass_windows : list instance :=
  [SensevalInstance.mk "bass-n" 1 [("guitar", "NN"); ("bass", "NN"); ("player", "NN")]
                       (SensesStr "music");
   SensevalInstance.mk "bass-n" 2
     [("the", "DT"); ("sound", "NN"); ("bass", "NN"); ("player", "NN"); ("a", "DT")]
     (SensesStr "music")].

(** A content word: not a stop word and longer than one character, the
    test of the two comprehensions of cell 19. *)
Definition is_content (stopwords : list string) (t : string) : Prop :=
  negb (Py.mem t stopwords) && (1 <? String.length t)%nat = true.

#[global] Instance is_content_dec stopwords t : Decision (is_content stopwords t).
Proof. unfold is_content. apply _. Defined.

(** Every character of [s] passes the test [p]. *)
Fixpoint all_chars (p : ascii -> bool) (s : string) : bool :=
  match s with
  | EmptyString => true
  | String c s' => p c && all_chars p s'
  end.

(** A character of the ASCII range, on which [str.lower], the classes
    [\w] and [\s] and [string.punctuation] are the tables of [Chars]. *)
Definition is_ascii (c : ascii) : bool := (Chars.code c <? 128)%nat.

(** A context whose tokens are made of ASCII characters only. *)
Definition ascii_text (text : list tagged) : Prop :=
  Forall (fun w => all_chars is_ascii w.1 = true) text.

(** A character that survives normalisation: neither punctuation, nor an
    upper-case letter, nor white space. *)
Definition plain_char (c : ascii) : bool :=
  negb (Chars.is_punctuation c) && negb (Chars.is_upper c) && negb (Chars.is_space c).

(** The labels cell 6 records for one corpus instance: its word paired
    with each of its senses. *)
Definition labels_of (i : instance) : list label :=
  map (fun id => (SensevalInstance.word i, id)) (senses_iter (SensevalInstance.senses i)).

(** The number of stored instances cell 23 selects for a label. *)
Definition selected_count (l : label) (instances : list instance) : nat :=
  length (filter (fun inst => selected l inst = true) instances).

(** The labels of [label_sets] whose word is [w]. *)
Definition labels_of_word (w : string) (label_sets : list label) : list label :=
  filter (fun l => l.1 = w) label_sets.

(** How an item of a per-word set came about: it is the record built for
    some instance selected for some label of the word [w]. *)
Definition built_for (label_sets : list label) (instances : list instance)
    (co : Dict.t (list string)) (w : string) (it : item) : Prop :=
  exists l inst,
    l ∈ label_sets /\ l.1 = w /\ it.2 = l
    /\ inst ∈ instances /\ selected l inst = true
    /\ feature_of l (Dict.get_list co w) inst = Some it.

(** A corpus instance every cell can process: its target position is an
    index of its context and no token of the context is blank. *)
Definition well_formed (i : instance) : Prop :=
  (0 <= SensevalInstance.position i < Z.of_nat (length (SensevalInstance.context i)))%Z
  /\ Forall (fun w => blank w.1 = false) (SensevalInstance.context i).

(** The windows of a corpus instance as often as it has senses. *)
Definition weighted_windows (w : string) (i : instance) : list string :=
  if decide (SensevalInstance.word i = w) then
    concat (replicate (length (senses_iter (SensevalInstance.senses i))) (window_of i))
  else [].

(** * Properties *)

(** ** Tokens without a piece *)

Lemma classify_Space c :
  WordPunct.classify c = WordPunct.Space
  <-> Chars.is_space c = true /\ Chars.is_word c = false.
Proof.
  unfold WordPunct.classify.
  destruct (Chars.is_word c), (Chars.is_space c); intuition congruence.
Qed.

Lemma space_not_word c : Chars.is_space c = true -> Chars.is_word c = false.
Proof.
  destruct c as [[] [] [] [] [] [] [] []]; vm_compute; congruence.
Qed.

Lemma wp_tokenize_nil w : WordPunct.tokenize w = [] <-> blank w = true.
Proof.
  induction w as [|c w IH]; simpl; [tauto|].
  destruct (WordPunct.classify c) eqn:Hc.
  - split.
    + destruct w; [discriminate|].
      destruct (WordPunct.cclass_eqb _ _); [destruct (WordPunct.tokenize _)|];
        discriminate.
    + intros [Hs _]%andb_prop. pose proof (space_not_word _ Hs) as Hw.
      unfold WordPunct.classify in Hc. rewrite Hw, Hs in Hc. discriminate.
  - split.
    + destruct w; [discriminate|].
      destruct (WordPunct.cclass_eqb _ _); [destruct (WordPunct.tokenize _)|];
        discriminate.
    + intros [Hs _]%andb_prop. pose proof (space_not_word _ Hs) as Hw.
      unfold WordPunct.classify in Hc. rewrite Hw, Hs in Hc. discriminate.
  - apply classify_Space in Hc as [-> _]. simpl. exact IH.
Qed.

Lemma norm_word_None w : norm_word w = None <-> blank w = true.
Proof.
  unfold norm_word. rewrite <- wp_tokenize_nil.
  destruct (WordPunct.tokenize w); split; congruence.
Qed.

Lemma cclass_eqb_eq a b : WordPunct.cclass_eqb a b = true <-> a = b.
Proof. destruct a, b; simpl; intuition congruence. Qed.

Lemma append_String c a b : (String c a ++ b)%string = String c (a ++ b)%string.
Proof. reflexivity. Qed.

Lemma append_empty b : (EmptyString ++ b)%string = b.
Proof. reflexivity. Qed.

Lemma blank_app_tokenize ws s :
  blank ws = true -> WordPunct.tokenize (ws ++ s)%string = WordPunct.tokenize s.
Proof.
  induction ws as [|c ws IH]; [reflexivity|].
  intros [Hs Hb]%andb_prop. rewrite append_String.
  cbn [WordPunct.tokenize].
  assert (Hc : WordPunct.classify c = WordPunct.Space).
  { apply classify_Space. auto using space_not_word. }
  rewrite Hc. auto.
Qed.

(** The first piece of a token: leading white space is skipped, and the
    piece is the longest run of one class that follows. *)
Lemma first_piece ws piece rest k :
  blank ws = true ->
  k <> WordPunct.Space ->
  piece <> EmptyString ->
  all_of_class k piece = true ->
  stops_run k rest = true ->
  exists ts, WordPunct.tokenize (ws ++ piece ++ rest)%string = piece :: ts.
Proof.
  intros Hws Hk Hne Hall Hstop. rewrite blank_app_tokenize by assumption. clear ws Hws.
  induction piece as [|c piece IH]; [congruence|]. clear Hne.
  cbn [all_of_class] in Hall. apply andb_prop in Hall as [Hc%cclass_eqb_eq Hall].
  rewrite append_String. cbn [WordPunct.tokenize]. rewrite Hc.
  destruct piece as [|c' piece].
  - rewrite append_empty. destruct rest as [|c' rest].
    + exists []. destruct k; congruence.
    + cbn [stops_run] in Hstop. apply negb_true_iff in Hstop.
      destruct k; [| |congruence]; rewrite Hstop; eexists; reflexivity.
  - destruct IH as [ts Hts]; [discriminate|assumption|].
    rewrite append_String in *. rewrite Hts.
    cbn [all_of_class] in Hall. apply andb_prop in Hall as [Hc' _].
    exists ts. destruct k; [| |congruence]; rewrite Hc'; reflexivity.
Qed.

Lemma norm_word_first_piece ws piece rest k :
  blank ws = true ->
  k <> WordPunct.Space ->
  piece <> EmptyString ->
  all_of_class k piece = true ->
  stops_run k rest = true ->
  norm_word (ws ++ piece ++ rest)%string
  = Some (Chars.strip_punctuation (Chars.lower piece)).
Proof.
  intros. destruct (first_piece ws piece rest k) as [ts Hts]; try assumption.
  unfold norm_word. rewrite Hts. reflexivity.
Qed.

(** ** Cell 11: what [tokenize] returns *)

Lemma tokenize_kept text :
  Forall (fun w => blank w.1 = false) text ->
  tokenize text = Some (omap kept text).
Proof.
  induction 1 as [|w text Hw _ IH]; [reflexivity|].
  change (omap kept (w :: text))
    with (match kept w with Some y => y :: omap kept text | None => omap kept text end).
  cbn [tokenize]. rewrite IH. unfold kept.
  destruct (norm_word w.1) as [nw|] eqn:Hn.
  - simpl. destruct (String.length nw); reflexivity.
  - apply norm_word_None in Hn. congruence.
Qed.

Lemma tokenize_None text :
  tokenize text = None <-> Exists (fun w => blank w.1 = true) text.
Proof.
  induction text as [|w text IH]; simpl.
  - split; [discriminate|]. intros H. inversion H.
  - rewrite Exists_cons, <- IH, <- norm_word_None.
    destruct (norm_word w.1); simpl; [|tauto].
    destruct (tokenize text); simpl; intuition congruence.
Qed.

(** ** Cell 13: when [extract_context] returns *)

Lemma extract_context_None p text c :
  extract_context p text c = None <->
  Exists (fun w => blank w.1 = true)
         (Py.slice_to p text ++ Py.slice_from (p + 1) text).
Proof.
  unfold extract_context. rewrite Exists_app, <- !tokenize_None.
  destruct (tokenize (Py.slice_to p text)); simpl; [|tauto].
  destruct (tokenize (Py.slice_from (p + 1) text)); simpl; intuition congruence.
Qed.

Lemma extract_context_Some p text c :
  Forall (fun w => blank w.1 = false) text ->
  extract_context p text c
  = Some (Py.slice_from (- c) (omap kept (Py.slice_to p text)),
          Py.slice_to c (omap kept (Py.slice_from (p + 1) text))).
Proof.
  intros H. unfold extract_context.
  rewrite !tokenize_kept; [reflexivity| |].
  - unfold Py.slice_to. apply Forall_take, H.
  - unfold Py.slice_from. apply Forall_drop, H.
Qed.

Lemma run_split k s :
  exists run rest, s = (run ++ rest)%string
    /\ all_of_class k run = true /\ stops_run k rest = true.
Proof.
  induction s as [|c s (run & rest & -> & Hrun & Hrest)].
  - exists EmptyString, EmptyString. auto.
  - destruct (WordPunct.cclass_eqb (WordPunct.classify c) k) eqn:Hc.
    + exists (String c run), rest. simpl. rewrite Hc, Hrun. auto.
    + exists EmptyString, (String c (run ++ rest)%string). simpl. rewrite Hc. auto.
Qed.

Lemma not_blank_decomposition w :
  blank w = false ->
  exists ws piece rest k,
    w = (ws ++ piece ++ rest)%string /\ blank ws = true
    /\ k <> WordPunct.Space /\ piece <> EmptyString
    /\ all_of_class k piece = true /\ stops_run k rest = true.
Proof.
  induction w as [|c w IH]; [discriminate|].
  cbn [blank]. destruct (Chars.is_space c) eqn:Hs; simpl.
  - intros (ws & piece & rest & k & -> & Hws & H)%IH.
    exists (String c ws), piece, rest, k. split; [reflexivity|].
    split; [|exact H]. simpl. rewrite Hs, Hws. reflexivity.
  - intros _.
    destruct (run_split (WordPunct.classify c) w) as (run & rest & -> & Hrun & Hrest).
    exists EmptyString, (String c run), rest, (WordPunct.classify c).
    repeat split; try assumption; try discriminate.
    + intros [Hs' _]%classify_Space. congruence.
    + simpl. rewrite Hrun. destruct (WordPunct.classify c); reflexivity.
Qed.

(** C6 (the code breaks the claim): [extract_context] raises [IndexError]
    on the context [[(" ", "NN"), ("bass", "NN")]] with the target at
    position 1, and in general it raises exactly when some entry to the
    left or to the right of the target has a blank token (empty or all
    white space), because [tokenizer.tokenize(w[0])[0]] then indexes an
    empty list. *)
Theorem extract_context_raises_on_blank_token :
  extract_context 1 [(" ", "NN"); ("bass", "NN")] 2 = None
  /\ extract_context 0 [("bass", "NN"); ("", "NN")] 2 = None
  /\ forall p text c,
       extract_context p text c = None <->
       Exists (fun w => blank w.1 = true)
              (Py.slice_to p text ++ Py.slice_from (p + 1) text).
Proof.
  split; [reflexivity|]. split; [reflexivity|]. apply extract_context_None.
Qed.

(** C7 (the claim as stated fails): on the entry [("low-and", "JJ")] the
    code keeps [("low", "JJ")], whereas the whole token lower-cased with
    punctuation stripped is ["lowand"]. *)
Lemma tokenize_cuts_hyphenated_token :
  tokenize [("low-and", "JJ")] = Some [("low", "JJ")]
  /\ omap whole_kept [("low-and", "JJ")] = [("lowand", "JJ")]
  /\ tokenize [("low-and", "JJ")] <> Some (omap whole_kept [("low-and", "JJ")]).
Proof.
  split; [reflexivity|]. split; [reflexivity|]. vm_compute. discriminate.
Qed.

(** C7 (amended): for a context in which every token has a character that
    is not white space, [tokenize] returns, in order, the entries [kept w];
    the normalised token is the first piece of the token (after leading
    white space, the longest run of word characters or of other
    characters that are not white space) lower-cased with punctuation
    deleted, so that ["low-and"] becomes ["low"]; an entry is dropped
    exactly when that result is empty; the two quote artifacts are dropped
    for that reason and the list [filters] is not consulted. *)
Theorem tokenize_normalises_first_piece (text : list tagged) :
  Forall (fun w => blank w.1 = false) text ->
  tokenize text = Some (omap kept text)
  /\ (forall w, w ∈ text ->
        exists ws piece rest k,
          w.1 = (ws ++ piece ++ rest)%string /\ blank ws = true
          /\ k <> WordPunct.Space /\ piece <> EmptyString
          /\ all_of_class k piece = true /\ stops_run k rest = true
          /\ norm_word w.1 = Some (whole_norm piece)
          /\ (kept w = None <-> whole_norm piece = EmptyString)
          /\ (whole_norm piece <> EmptyString -> kept w = Some (whole_norm piece, w.2)))
  /\ norm_word "low-and" = Some "low"
  /\ Forall (fun f => kept (f, f) = None /\ norm_word f = Some EmptyString) filters.
Proof.
  intros Htext. split; [apply tokenize_kept, Htext|].
  split; [|split; [reflexivity|repeat constructor]].
  intros w Hw. rewrite Forall_forall in Htext.
  destruct (not_blank_decomposition w.1)
    as (ws & piece & rest & k & Heq & Hws & Hk & Hne & Hall & Hstop).
  { apply Htext, Hw. }
  exists ws, piece, rest, k.
  assert (Hn : norm_word w.1 = Some (whole_norm piece)).
  { rewrite Heq. eapply norm_word_first_piece; eassumption. }
  repeat (split; [assumption|]).
  unfold kept. rewrite Hn.
  destruct (whole_norm piece) as [|a s]; simpl.
  - split; [tauto|congruence].
  - split; [split; discriminate|reflexivity].
Qed.

Lemma tokenize_normalises_first_piece_witness :
  tokenize [("Low-and", "JJ"); ("``", "``"); ("don't", "VB")]
  = Some [("low", "JJ"); ("don", "VB")].
Proof.
  destruct (tokenize_normalises_first_piece
              [("Low-and", "JJ"); ("``", "``"); ("don't", "VB")]) as [H _].
  - repeat constructor.
  - rewrite H. reflexivity.
Defined.

(** ** Cell 17: feature records *)

Lemma mem_true x l : Py.mem x l = true <-> x ∈ l.
Proof. unfold Py.mem. apply bool_decide_eq_true. Qed.


(** C8: the co-occurrence vector of a feature record has the length of the
    vocabulary it was built against, its [i]-th entry is 1 when the [i]-th
    vocabulary word occurs among the context tokens and 0 otherwise, and
    context tokens [guitar, player] against the vocabulary
    [fishing, player, sound] give [0, 1, 0]. *)
Theorem co_occ_bits (targetword : string) (left_ctxt right_ctxt : list tagged)
    (vocabulary : list string) :
  let fr := extract_features targetword left_ctxt right_ctxt vocabulary in
  length (Features.co_occ fr) = length vocabulary
  /\ Features.context fr = map fst left_ctxt ++ map fst right_ctxt
  /\ (forall i,
        Features.co_occ fr !! i
        = (fun v => if bool_decide (v ∈ Features.context fr) then 1 else 0)
            <$> vocabulary !! i)
  /\ (forall i v, vocabulary !! i = Some v ->
        (Features.co_occ fr !! i = Some 1 <-> v ∈ Features.context fr)
        /\ (Features.co_occ fr !! i = Some 0 <-> v ∉ Features.context fr))
  /\ (Features.context fr = ["guitar"; "player"] ->
      vocabulary = ["fishing"; "player"; "sound"] ->
      Features.co_occ fr = [0; 1; 0]).
Proof.
  cbn zeta. unfold extract_features. cbn [Features.co_occ Features.context].
  split; [apply length_map|]. split; [reflexivity|].
  assert (Hi : forall i,
    map (fun i0 => if Py.mem i0 (map fst left_ctxt ++ map fst right_ctxt) then 1 else 0)
        vocabulary !! i
    = (fun v => if bool_decide (v ∈ map fst left_ctxt ++ map fst right_ctxt) then 1 else 0)
        <$> vocabulary !! i).
  { intros i. rewrite list_lookup_fmap. reflexivity. }
  split; [exact Hi|]. split.
  - intros i v Hv. rewrite Hi, Hv. simpl. case_bool_decide; split; split; congruence.
  - intros -> ->. reflexivity.
Qed.

Lemma co_occ_bits_witness :
  Features.co_occ
    (extract_features "bass" [("guitar", "NN")] [("player", "NN")]
                      ["fishing"; "player"; "sound"]) = [0; 1; 0].
Proof.
  apply (co_occ_bits "bass" [("guitar", "NN")] [("player", "NN")]
                     ["fishing"; "player"; "sound"]); reflexivity.
Defined.




(** ** Cell 6: the loader *)

Lemma foldl_add_sense i a st ids :
  let st' := foldl (Loader.add_sense i a) st ids in
  Loader.heap st'
  = match last ids with
    | Some id => alter (SensevalInstance.set_senses (SensesStr id)) a (Loader.heap st)
    | None => Loader.heap st
    end
  /\ Loader.instances st' = Loader.instances st ++ replicate (length ids) a
  /\ Loader.labels_classes st'
     = Loader.labels_classes st ++ map (fun id => (SensevalInstance.word i, id)) ids.
Proof.
  cbn zeta. revert st. induction ids as [|id ids IH]; intros st.
  - simpl. rewrite !app_nil_r. auto.
  - cbn [foldl]. destruct (IH (Loader.add_sense i a st id)) as (Hh & Hi & Hl).
    rewrite Hh, Hi, Hl. cbn [Loader.add_sense Loader.heap Loader.instances Loader.labels_classes].
    split; [|split].
    + destruct ids as [|id' ids]; [reflexivity|].
      change (last (id :: id' :: ids)) with (last (id' :: ids)).
      destruct (last (id' :: ids)) eqn:Hlast.
      * rewrite list_alter_alter_eq. apply list_alter_ext; [|reflexivity]. reflexivity.
      * apply last_None in Hlast. discriminate.
    + rewrite <- app_assoc. reflexivity.
    + rewrite <- app_assoc. reflexivity.
Qed.

Lemma load_instance_stored st i :
  addresses_ok st ->
  addresses_ok (Loader.load_instance st i)
  /\ Loader.stored (Loader.load_instance st i) = Loader.stored st ++ expansion i
  /\ Loader.labels_classes (Loader.load_instance st i)
     = Loader.labels_classes st
       ++ map (fun id => (SensevalInstance.word i, id))
              (senses_iter (SensevalInstance.senses i)).
Proof.
  intros Hok. unfold Loader.load_instance.
  set (ids := senses_iter (SensevalInstance.senses i)).
  set (st0 := Loader.mkState _ _ _).
  destruct (foldl_add_sense i (length (Loader.heap st)) st0 ids) as (Hh & Hi & Hl).
  cbn zeta in *. set (st' := foldl _ st0 ids) in *.
  assert (Hlen : length (Loader.heap st') = S (length (Loader.heap st))).
  { rewrite Hh. subst st0. cbn [Loader.heap].
    destruct (last ids); rewrite ?length_alter, length_app; simpl; lia. }
  split; [|split].
  - unfold addresses_ok. rewrite Hi, Hlen. subst st0. cbn [Loader.instances].
    apply Forall_app. split.
    + eapply Forall_impl; [exact Hok|]. simpl. lia.
    + apply Forall_replicate. lia.
  - unfold Loader.stored. rewrite Hi, omap_app. subst st0. cbn [Loader.instances]. f_equal.
    + apply list_omap_ext. apply Forall_Forall2_diag.
      eapply Forall_impl; [exact Hok|]. intros a Ha. simpl in Ha.
      rewrite Hh. cbn [Loader.heap]. destruct (last ids).
      * rewrite list_lookup_alter_ne by lia. apply lookup_app_l. exact Ha.
      * apply lookup_app_l. exact Ha.
    + unfold expansion. fold ids. rewrite Hh. cbn [Loader.heap].
      destruct (last ids) as [id|] eqn:Hlast.
      * generalize (length ids). intros n. induction n as [|n IHn]; [reflexivity|].
        cbn [replicate omap list_omap]. 
        rewrite list_lookup_alter_eq, lookup_app_r, Nat.sub_diag by lia. simpl.
        f_equal. exact IHn.
      * apply last_None in Hlast. rewrite Hlast. reflexivity.
  - rewrite Hl. reflexivity.
Qed.

Lemma foldl_load_instance_stored st file :
  addresses_ok st ->
  addresses_ok (foldl Loader.load_instance st file)
  /\ Loader.stored (foldl Loader.load_instance st file)
     = Loader.stored st ++ (file ≫= expansion).
Proof.
  revert st. induction file as [|i file IH]; intros st Hok.
  - simpl. rewrite app_nil_r. auto.
  - cbn [foldl]. destruct (load_instance_stored st i Hok) as (Hok' & Hs & _).
    destruct (IH _ Hok') as (Hok'' & Hs'). split; [assumption|].
    rewrite Hs', Hs, <- app_assoc. reflexivity.
Qed.

Lemma load_stored_from st files :
  addresses_ok st ->
  Loader.stored (foldl (foldl Loader.load_instance) st files)
  = Loader.stored st ++ (concat files ≫= expansion).
Proof.
  revert st. induction files as [|file files IH]; intros st Hok.
  - simpl. rewrite app_nil_r. auto.
  - cbn [foldl concat]. destruct (foldl_load_instance_stored st file Hok) as (Hok' & Hs).
    rewrite IH by assumption. rewrite Hs, bind_app, <- app_assoc. reflexivity.
Qed.

Lemma load_stored files :
  Loader.stored (Loader.load files) = concat files ≫= expansion.
Proof.
  unfold Loader.load. rewrite load_stored_from; [reflexivity|]. constructor.
Qed.

(** C2 (the code breaks the claim): the deep copy is made once per corpus
    instance and the same object is appended for each sense, so for every
    corpus the stored instances are, per corpus instance, as many
    references as it has senses to one object carrying the last sense.
    For the instance with senses [cord] and [phone] both entries carry
    [phone] and no stored instance carries [cord]. *)
Theorem load_stores_last_sense_only :
  (forall files, Loader.stored (Loader.load files) = concat files ≫= expansion)
  /\ Loader.instances (Loader.load [[two_sense_instance]]) = [0; 0]
  /\ Loader.stored (Loader.load [[two_sense_instance]])
     = [SensevalInstance.set_senses (SensesStr "phone") two_sense_instance;
        SensevalInstance.set_senses (SensesStr "phone") two_sense_instance]
  /\ Loader.labels_classes (Loader.load [[two_sense_instance]])
     = [("line-n", "cord"); ("line-n", "phone")]
  /\ ~ exists inst, inst ∈ Loader.stored (Loader.load [[two_sense_instance]])
                  /\ SensevalInstance.senses inst = SensesStr "cord".
Proof.
  split; [exact load_stored|]. split; [reflexivity|]. split; [reflexivity|].
  split; [reflexivity|].
  intros (inst & Hin & Hs). change (Loader.stored _) with
    [SensevalInstance.set_senses (SensesStr "phone") two_sense_instance;
     SensevalInstance.set_senses (SensesStr "phone") two_sense_instance] in Hin.
  repeat (apply elem_of_cons in Hin as [->|Hin]; [discriminate Hs|]).
  inversion Hin.
Qed.

(** ** Cell 23: selection of the instances of a label *)

Lemma starts_with_spec p s :
  Py.starts_with p s = true <-> exists post, s = (p ++ post)%string.
Proof.
  revert s. induction p as [|a p IH]; intros s.
  - simpl. split; [eauto|reflexivity].
  - destruct s as [|b s]; simpl.
    + split; [discriminate|]. intros [post H]. discriminate.
    + destruct (Ascii.eqb a b) eqn:Hab.
      * apply Ascii.eqb_eq in Hab as ->. rewrite IH. split.
        -- intros [post ->]. exists post. reflexivity.
        -- intros [post H]. rewrite append_String in H. injection H as ->. eauto.
      * split; [discriminate|]. intros [post H]. rewrite append_String in H.
        injection H as <- _. rewrite Ascii.eqb_refl in Hab. discriminate.
Qed.

Lemma substring_of_spec p s :
  Py.substring_of p s = true <-> exists pre post, s = (pre ++ p ++ post)%string.
Proof.
  induction s as [|b s IH].
  - simpl. rewrite orb_false_r, starts_with_spec. split.
    + intros [post ->]. exists EmptyString, post. reflexivity.
    + intros (pre & post & H). destruct pre; [eauto|discriminate].
  - cbn [Py.substring_of]. rewrite orb_true_iff, IH, starts_with_spec. split.
    + intros [[post ->]|(pre & post & ->)].
      * exists EmptyString, post. reflexivity.
      * exists (String b pre), post. reflexivity.
    + intros (pre & post & H). destruct pre as [|c pre].
      * left. eauto.
      * right. rewrite append_String in H. injection H as -> ->. eauto.
Qed.

Lemma stored_senses_are_strings files inst :
  inst ∈ Loader.stored (Loader.load files) ->
  exists id, SensevalInstance.senses inst = SensesStr id.
Proof.
  rewrite load_stored. intros (i & Hin & _)%list_elem_of_bind.
  unfold expansion in Hin. destruct (last _) as [id|]; [|inversion Hin].
  apply elem_of_replicate in Hin as [-> _]. eauto.
Qed.

Lemma feature_loop_spec l v insts acc :
  feature_loop l v insts acc
  = fs ← mapM (feature_of l v) (filter (fun i => selected l i = true) insts);
    Some (acc ++ fs).
Proof.
  revert acc. induction insts as [|inst insts IH]; intros acc.
  - simpl. rewrite app_nil_r. reflexivity.
  - cbn [feature_loop]. rewrite filter_cons. destruct (selected l inst) eqn:Hsel.
    + rewrite decide_True by reflexivity. cbn [mapM].
      destruct (feature_of l v inst) as [f|]; [|reflexivity].
      cbn [mbind option_bind]. rewrite IH.
      destruct (mapM _ _) as [fs|]; [|reflexivity].
      simpl. rewrite <- app_assoc. reflexivity.
    + rewrite decide_False by discriminate. apply IH.
Qed.

Lemma feature_loop_member l v insts fs inst :
  feature_loop l v insts [] = Some fs ->
  inst ∈ insts ->
  selected l inst = true ->
  exists fr, feature_of l v inst = Some (fr, l) /\ (fr, l) ∈ fs.
Proof.
  rewrite feature_loop_spec. intros Hloop Hin Hsel.
  destruct (mapM _ _) as [fs'|] eqn:HmapM; [|discriminate].
  simpl in Hloop. injection Hloop as <-.
  apply mapM_Some in HmapM.
  assert (Hin' : inst ∈ filter (fun i => selected l i = true) insts).
  { apply list_elem_of_filter. auto. }
  apply list_elem_of_lookup in Hin' as [n Hn].
  destruct (Forall2_lookup_l _ _ _ _ _ HmapM Hn) as (f & Hf & Hfeat).
  assert (Hl : f.2 = l).
  { unfold feature_of in Hfeat. destruct (Py.index _ _); [|discriminate].
    simpl in Hfeat. destruct (extract_context _ _ _) as [[? ?]|]; [|discriminate].
    injection Hfeat as <-. reflexivity. }
  destruct f as [fr l']. simpl in Hl. subst l'. exists fr. split; [assumption|].
  apply list_elem_of_lookup. eauto.
Qed.

(** C10: every stored instance has a string as [senses]; it is selected
    for the label [(w, s)] exactly when [w] is its word and [s] occurs in
    that string as a substring.  Hence an instance is selected for every
    label of its word whose sense id is a substring of its own sense id,
    and the feature sets of such a label contain a record built from it. *)
Theorem selection_is_substring_containment (files : list (list instance))
    (w s : string) (inst : instance) :
  inst ∈ Loader.stored (Loader.load files) ->
  exists id,
    SensevalInstance.senses inst = SensesStr id
    /\ (selected (w, s) inst = true <->
        w = SensevalInstance.word inst
        /\ exists pre post, id = (pre ++ s ++ post)%string)
    /\ (forall short,
          (exists pre post, id = (pre ++ short ++ post)%string) ->
          let l := (SensevalInstance.word inst, short) in
          selected l inst = true
          /\ forall vocabulary fs,
               feature_loop l vocabulary (Loader.stored (Loader.load files)) [] = Some fs ->
               exists fr, feature_of l vocabulary inst = Some (fr, l) /\ (fr, l) ∈ fs).
Proof.
  intros Hin. destruct (stored_senses_are_strings files inst Hin) as [id Hid].
  exists id. split; [assumption|].
  assert (Hsel : forall w s, selected (w, s) inst = true <->
            w = SensevalInstance.word inst
            /\ exists pre post, id = (pre ++ s ++ post)%string).
  { intros w' s'. unfold selected. rewrite Hid. cbn [fst snd sense_in].
    rewrite andb_true_iff, String.eqb_eq, substring_of_spec. reflexivity. }
  split; [apply Hsel|].
  intros short Hsub l.
  assert (Hl : selected l inst = true) by (apply Hsel; auto).
  split; [assumption|]. intros v fs Hloop.
  eapply feature_loop_member; eassumption.
Qed.

Lemma selection_is_substring_containment_witness :
  selected ("serve-v", "SERVE1") serve10_instance = true.
Proof.
  destruct (selection_is_substring_containment
              [[SensevalInstance.mk "serve-v" 1
                  [("they", "PRP"); ("serve", "VBP"); ("dinner", "NN")]
                  (SensesTuple ["SERVE10"])]]
              "serve-v" "SERVE1" serve10_instance) as (id & Hid & _ & Hsub).
  - vm_compute. left.
  - injection Hid as <-. apply (Hsub "SERVE1"). exists EmptyString, "0". reflexivity.
Defined.

(** ** Slices, [random.shuffle] and the two splits *)

Lemma slice_to_nat {A} (k : nat) (l : list A) : Py.slice_to (Z.of_nat k) l = take k l.
Proof.
  unfold Py.slice_to, Py.slice_bound.
  destruct (Z.ltb_spec (Z.of_nat k) 0); [lia|].
  destruct (Nat.le_gt_cases k (length l)).
  - f_equal. lia.
  - rewrite !take_ge by lia. reflexivity.
Qed.

Lemma slice_from_nat {A} (k : nat) (l : list A) : Py.slice_from (Z.of_nat k) l = drop k l.
Proof.
  unfold Py.slice_from, Py.slice_bound.
  destruct (Z.ltb_spec (Z.of_nat k) 0); [lia|].
  destruct (Nat.le_gt_cases k (length l)).
  - f_equal. lia.
  - rewrite !drop_ge by lia. reflexivity.
Qed.

Lemma int_fifth_div n : Py.int_fifth n = n / 5.
Proof.
  unfold Py.int_fifth. change 10 with (5 * 2). apply Nat.Div0.div_mul_cancel_r. lia.
Qed.

Lemma swap_Permutation {A} i j (x : list A) : Random.swap i j x ≡ₚ x.
Proof.
  unfold Random.swap.
  destruct (x !! i) as [a|] eqn:Hi; [|reflexivity].
  destruct (x !! j) as [b|] eqn:Hj; [|reflexivity].
  apply Permutation_insert_swap; assumption.
Qed.

Lemma shuffle_from_Permutation {A} n (x : list A) g :
  (Random.shuffle_from n x g).1 ≡ₚ x.
Proof.
  revert x g. induction n as [|n IH]; intros x g; [reflexivity|].
  cbn [Random.shuffle_from Random.randbelow]. rewrite IH. apply swap_Permutation.
Qed.

Lemma shuffle_Permutation {A} (x : list A) g : (Random.shuffle x g).1 ≡ₚ x.
Proof. apply shuffle_from_Permutation. Qed.

Lemma per_word_split_eq {A} (fs : list A) :
  per_word_split fs = (drop (S (length fs / 5)) fs, take (length fs / 5) fs).
Proof.
  unfold per_word_split. rewrite int_fifth_div.
  replace (Z.of_nat (length fs / 5) + 1)%Z with (Z.of_nat (S (length fs / 5))) by lia.
  rewrite slice_from_nat, slice_to_nat. reflexivity.
Qed.

(** C1 (the code breaks the claim): the per-word split of cell 23 takes
    the test set as the first [n/5] records of the shuffled sequence and
    the training set from index [n/5 + 1] on, so the record at index
    [n/5] is in neither set and the two lengths add up to [n - 1]; from
    five records one is held out and three are trained on. *)
Theorem per_word_split_drops_boundary {A} (feature_sets : list A) (g : Random.state) :
  feature_sets <> [] ->
  let shuffled := (Random.shuffle feature_sets g).1 in
  let sample := length feature_sets / 5 in
  let '(training_set, test_set) := per_word_split shuffled in
  shuffled ≡ₚ feature_sets
  /\ test_set = take sample shuffled
  /\ training_set = drop (S sample) shuffled
  /\ length test_set + length training_set + 1 = length feature_sets
  /\ exists dropped, shuffled !! sample = Some dropped
                     /\ shuffled = test_set ++ dropped :: training_set.
Proof.
  intros Hne. cbn zeta.
  pose proof (shuffle_Permutation feature_sets g) as Hperm.
  set (shuffled := (Random.shuffle feature_sets g).1) in *.
  rewrite per_word_split_eq.
  assert (Hlen : length shuffled = length feature_sets) by (rewrite Hperm; reflexivity).
  rewrite Hlen.
  assert (Hlt : length feature_sets / 5 < length feature_sets).
  { destruct feature_sets; [congruence|]. apply Nat.div_lt; simpl; lia. }
  split; [assumption|]. split; [reflexivity|]. split; [reflexivity|].
  split.
  - rewrite length_take, length_drop. lia.
  - destruct (lookup_lt_is_Some_2 shuffled (length feature_sets / 5)) as [x Hx]; [lia|].
    exists x. split; [assumption|]. symmetry. apply take_drop_middle. assumption.
Qed.

Lemma per_word_split_drops_boundary_witness :
  per_word_split (Random.shuffle [1; 2; 3; 4; 5] [4; 3; 2; 1]).1 = ([3; 4; 5], [1])
  /\ (Random.shuffle [1; 2; 3; 4; 5] [4; 3; 2; 1]).1 !! 1 = Some 2.
Proof.
  pose proof (per_word_split_drops_boundary [1; 2; 3; 4; 5] [4; 3; 2; 1]) as H.
  cbn zeta in H. destruct (per_word_split _) as [tr te].
  destruct H as (_ & -> & -> & _); [discriminate|].
  split; reflexivity.
Defined.

(** C3 (the claim as stated fails): on a corpus of six instances of one
    word, with draws that leave both shuffles in place, the merged test
    set is not the per-word test set: its single record comes from the
    per-word training set. *)
Lemma merged_test_takes_training_records :
  exists d train_set test_set x,
    notebook [] bass_corpus identity_draws = Some (d, (train_set, test_set))
    /\ test_set <> merge_values (test_set_per_class d)
    /\ train_set <> merge_values (train_set_per_class d)
    /\ test_set = [x]
    /\ x ∈ merge_values (train_set_per_class d)
    /\ x ∉ merge_values (test_set_per_class d).
Proof.
  eexists _, _, _, _. split; [vm_compute; reflexivity|].
  split; [discriminate|]. split; [discriminate|]. split; [reflexivity|].
  split.
  - vm_compute. left.
  - vm_compute. intros H. apply list_elem_of_singleton in H. discriminate H.
Qed.

Lemma merged_split_eq {A} (sub_train_set sub_test_set : list A) g :
  let total := (Random.shuffle (sub_train_set ++ sub_test_set) g).1 in
  merged_split sub_train_set sub_test_set g
  = (drop (length total / 5) total, take (length total / 5) total).
Proof.
  cbn zeta. unfold merged_split.
  destruct (Random.shuffle (sub_train_set ++ sub_test_set) g) as [total g'].
  cbn [fst]. rewrite int_fifth_div, slice_from_nat, slice_to_nat. reflexivity.
Qed.

Lemma foldl_app_concat {A B} (f : B -> list A) ks acc :
  foldl (fun acc k => acc ++ f k) acc ks = acc ++ concat (map f ks).
Proof.
  revert acc. induction ks as [|k ks IH]; intros acc.
  - simpl. rewrite app_nil_r. reflexivity.
  - cbn [foldl map concat]. rewrite IH, <- app_assoc. reflexivity.
Qed.

Lemma merge_values_concat {A} (d : Dict.t (list A)) :
  merge_values d = concat (map (Dict.get_list d) (Dict.keys d)).
Proof. unfold merge_values. rewrite foldl_app_concat. reflexivity. Qed.

Lemma elem_of_concat_map {A B} (f : B -> list A) (ks : list B) (x : A) :
  x ∈ concat (map f ks) <-> exists k, k ∈ ks /\ x ∈ f k.
Proof.
  induction ks as [|k ks IH].
  - simpl. split; [intros H; inversion H|]. intros (k & Hk & _). inversion Hk.
  - cbn [map concat]. rewrite elem_of_app, IH. split.
    + intros [Hx|(k' & Hk' & Hx)]; [exists k; split; [left|exact Hx]|].
      exists k'. split; [right; exact Hk'|exact Hx].
    + intros (k' & [->|Hk']%elem_of_cons & Hx); [left; exact Hx|right; eauto].
Qed.

(** C3 (amended): the merged sets are a fresh partition of one random
    permutation of all per-word training records followed by all per-word
    test records: [sub_train_set] and [sub_test_set] are the
    concatenations, in key order, of the per-word training sets and of the
    per-word test sets, the merged test set is the first fifth (rounded
    down) of the permuted total and the merged training set is the rest,
    so that every merged record comes from some per-word training or test
    set and every per-word record is in one of the merged sets. *)
Theorem merged_split_partitions_reshuffled_total (d : dicts) (g : Random.state) :
  let per_word_train :=
    map (Dict.get_list (train_set_per_class d)) (Dict.keys (train_set_per_class d)) in
  let per_word_test :=
    map (Dict.get_list (test_set_per_class d)) (Dict.keys (test_set_per_class d)) in
  let sub_train_set := concat per_word_train in
  let sub_test_set := concat per_word_test in
  merge_values (train_set_per_class d) = sub_train_set
  /\ merge_values (test_set_per_class d) = sub_test_set
  /\ exists total,
       total ≡ₚ sub_train_set ++ sub_test_set
       /\ cell31 d g = (drop (length total / 5) total, take (length total / 5) total)
       /\ (cell31 d g).2 ++ (cell31 d g).1 = total
       /\ length (cell31 d g).2 = (length sub_train_set + length sub_test_set) / 5
       /\ length (cell31 d g).2 + length (cell31 d g).1
          = length sub_train_set + length sub_test_set
       /\ (forall x, x ∈ (cell31 d g).2 \/ x ∈ (cell31 d g).1 <->
                     x ∈ sub_train_set \/ x ∈ sub_test_set)
       /\ (forall x, x ∈ (cell31 d g).2 \/ x ∈ (cell31 d g).1 <->
             (exists w, w ∈ Dict.keys (train_set_per_class d)
                        /\ x ∈ Dict.get_list (train_set_per_class d) w)
             \/ (exists w, w ∈ Dict.keys (test_set_per_class d)
                           /\ x ∈ Dict.get_list (test_set_per_class d) w)).
Proof.
  cbn zeta. unfold cell31. rewrite !merge_values_concat.
  set (sub_train_set :=
         concat (map (Dict.get_list (train_set_per_class d))
                     (Dict.keys (train_set_per_class d)))).
  set (sub_test_set :=
         concat (map (Dict.get_list (test_set_per_class d))
                     (Dict.keys (test_set_per_class d)))).
  split; [reflexivity|]. split; [reflexivity|].
  pose proof (shuffle_Permutation (sub_train_set ++ sub_test_set) g) as Hperm.
  rewrite merged_split_eq. cbn zeta.
  set (total := (Random.shuffle (sub_train_set ++ sub_test_set) g).1) in *.
  assert (Hlen : length total = length sub_train_set + length sub_test_set).
  { rewrite Hperm. apply length_app. }
  assert (Hmem : forall x, x ∈ take (length total / 5) total
                           \/ x ∈ drop (length total / 5) total <->
                           x ∈ sub_train_set \/ x ∈ sub_test_set).
  { intros x. rewrite <- !elem_of_app, take_drop, Hperm. reflexivity. }
  exists total. cbn [fst snd].
  split; [assumption|]. split; [reflexivity|].
  split; [apply take_drop|].
  split; [rewrite length_take, Hlen; apply Nat.min_l, Nat.Div0.div_le_upper_bound; lia|].
  split; [rewrite <- length_app, take_drop; assumption|].
  split; [exact Hmem|].
  intros x. rewrite Hmem. subst sub_train_set sub_test_set.
  rewrite !elem_of_concat_map. reflexivity.
Qed.

(** ** Frequency distributions *)

Lemma incr_keys x d :
  map fst (FreqDist.incr x d)
  = if decide (x ∈ map fst d) then map fst d else map fst d ++ [x].
Proof.
  induction d as [|[y n] d IH]; [reflexivity|].
  cbn [FreqDist.incr]. destruct (String.eqb_spec y x) as [->|Hne].
  - cbn [map fst]. rewrite decide_True by left. reflexivity.
  - cbn [map fst]. rewrite IH. destruct (decide (x ∈ map fst d)) as [Hin|Hin].
    + rewrite decide_True by (right; exact Hin). reflexivity.
    + rewrite decide_False; [reflexivity|].
      intros [H|H]%elem_of_cons; congruence.
Qed.

Lemma incr_count x d y :
  count_of (FreqDist.incr x d) y
  = if decide (y = x) then S (count_of d y) else count_of d y.
Proof.
  induction d as [|[z n] d IH].
  - simpl. destruct (String.eqb_spec x y), (decide (y = x)); congruence.
  - cbn [FreqDist.incr]. destruct (String.eqb_spec z x) as [->|Hne].
    + cbn [count_of]. destruct (String.eqb_spec x y), (decide (y = x)); congruence.
    + cbn [count_of]. rewrite IH.
      destruct (String.eqb_spec z y), (decide (y = x)); congruence.
Qed.

Lemma of_samples_snoc l x :
  FreqDist.of_samples (l ++ [x]) = FreqDist.incr x (FreqDist.of_samples l).
Proof. unfold FreqDist.of_samples. rewrite foldl_snoc. reflexivity. Qed.

Lemma occurrences_snoc y l x :
  occurrences y (l ++ [x])
  = if decide (y = x) then S (occurrences y l) else occurrences y l.
Proof.
  unfold occurrences. rewrite filter_app, length_app.
  rewrite filter_cons, filter_nil.
  destruct (decide (y = x)) as [->|Hne].
  - rewrite decide_True by reflexivity. simpl. lia.
  - rewrite decide_False by congruence. simpl. lia.
Qed.

Lemma of_samples_count l y :
  count_of (FreqDist.of_samples l) y = occurrences y l.
Proof.
  induction l as [|x l IH] using rev_ind; [reflexivity|].
  rewrite of_samples_snoc, incr_count, occurrences_snoc, IH. reflexivity.
Qed.

Lemma of_samples_keys_elem l y :
  y ∈ map fst (FreqDist.of_samples l) <-> y ∈ l.
Proof.
  induction l as [|x l IH] using rev_ind.
  - simpl. split; intros H; inversion H.
  - rewrite of_samples_snoc, incr_keys, elem_of_app, list_elem_of_singleton, <- IH.
    destruct (decide (x ∈ map fst (FreqDist.of_samples l))) as [Hin|Hin].
    + split; [tauto|]. intros [H| ->]; assumption.
    + rewrite elem_of_app, list_elem_of_singleton. reflexivity.
Qed.

Lemma of_samples_keys_NoDup l : NoDup (map fst (FreqDist.of_samples l)).
Proof.
  induction l as [|x l IH] using rev_ind; [constructor|].
  rewrite of_samples_snoc, incr_keys.
  destruct (decide (x ∈ map fst (FreqDist.of_samples l))) as [Hin|Hin]; [assumption|].
  apply NoDup_app. split; [assumption|]. split.
  - intros y Hy ->%list_elem_of_singleton. contradiction.
  - apply NoDup_singleton.
Qed.

Lemma count_of_elem d y n :
  NoDup (map fst d) -> (y, n) ∈ d -> count_of d y = n.
Proof.
  induction d as [|[z m] d IH]; intros Hnd Hin; [inversion Hin|].
  cbn [map fst] in Hnd. apply NoDup_cons in Hnd as [Hz Hnd].
  cbn [count_of]. apply elem_of_cons in Hin as [Heq|Hin].
  - injection Heq as <- <-. rewrite String.eqb_refl. reflexivity.
  - destruct (String.eqb_spec z y) as [->|Hne]; [|auto].
    exfalso. apply Hz. apply list_elem_of_fmap. exists (y, n). auto.
Qed.

Lemma of_samples_elem l y n :
  (y, n) ∈ FreqDist.of_samples l -> n = occurrences y l /\ y ∈ l.
Proof.
  intros Hin. split.
  - rewrite <- of_samples_count. symmetry. apply count_of_elem; [|assumption].
    apply of_samples_keys_NoDup.
  - apply of_samples_keys_elem. apply list_elem_of_fmap. exists (y, n). auto.
Qed.

(** Keys are in order of first occurrence. *)
Lemma of_samples_keys_order l k1 a k2 b :
  map fst (FreqDist.of_samples l) = k1 ++ a :: k2 ->
  b ∈ k2 ->
  first_before a b l.
Proof.
  revert k1 k2. induction l as [|x l IH] using rev_ind; intros k1 k2 Hk Hb.
  - destruct k1; discriminate.
  - rewrite of_samples_snoc, incr_keys in Hk.
    destruct (decide (x ∈ map fst (FreqDist.of_samples l))) as [Hin|Hin].
    + destruct (IH _ _ Hk Hb) as (l1 & l2 & -> & Ha & Hb').
      exists l1, (l2 ++ [x]). rewrite <- app_assoc. auto.
    + destruct k2 as [|c k2 _] using rev_ind; [inversion Hb|].
      change (k1 ++ a :: k2 ++ [c]) with (k1 ++ (a :: k2) ++ [c]) in Hk.
      rewrite app_assoc in Hk. apply app_inj_tail in Hk as [Hk <-].
      apply elem_of_app in Hb as [Hb|Hb%list_elem_of_singleton].
      * destruct (IH _ _ Hk Hb) as (l1 & l2 & -> & Ha & Hb').
        exists l1, (l2 ++ [x]). rewrite <- app_assoc. auto.
      * subst b. assert (Hal : a ∈ l).
        { apply of_samples_keys_elem. rewrite Hk.
          apply elem_of_app. right. left. }
        apply list_elem_of_split_l in Hal as (l1 & l2 & -> & Ha).
        exists l1, (l2 ++ [x]). rewrite <- app_assoc. split; [reflexivity|].
        split; [assumption|]. intros Hx. apply Hin.
        apply of_samples_keys_elem. apply elem_of_app. left. exact Hx.
Qed.

Lemma insert_Permutation e s : FreqDist.insert e s ≡ₚ e :: s.
Proof.
  induction s as [|e' s IH]; [reflexivity|].
  cbn [FreqDist.insert]. destruct (e.2 <? e'.2)%nat; [|reflexivity].
  rewrite IH. apply Permutation_swap.
Qed.

Lemma sorted_desc_Permutation d : FreqDist.sorted_desc d ≡ₚ d.
Proof.
  induction d as [|e d IH]; [reflexivity|].
  unfold FreqDist.sorted_desc in *. cbn [foldr]. rewrite insert_Permutation, IH. reflexivity.
Qed.

Lemma ranked_before_count d e1 e2 : ranked_before d e1 e2 -> snd e2 <= snd e1.
Proof. intros [H|[H _]]; lia. Qed.

Lemma ranked_before_cons d e e1 e2 :
  ranked_before d e1 e2 -> ranked_before (e :: d) e1 e2.
Proof.
  intros [H|[H (d1 & d2 & -> & Hin)]]; [left; assumption|].
  right. split; [assumption|]. exists (e :: d1), d2. auto.
Qed.

Lemma StronglySorted_weaken {A} (R R' : A -> A -> Prop) l :
  (forall x y, R x y -> R' x y) -> StronglySorted R l -> StronglySorted R' l.
Proof.
  intros HR. induction 1 as [|x l _ IH Hx]; constructor; [assumption|].
  eapply Forall_impl; [exact Hx|]. auto.
Qed.

Lemma insert_StronglySorted d e s :
  StronglySorted (ranked_before d) s ->
  (forall x, x ∈ s -> snd x = snd e -> ranked_before d e x) ->
  StronglySorted (ranked_before d) (FreqDist.insert e s).
Proof.
  induction 1 as [|e' s Hs IH He']; intros Hties.
  - repeat constructor.
  - cbn [FreqDist.insert]. destruct (Nat.ltb_spec e.2 e'.2) as [Hlt|Hge].
    + constructor.
      * apply IH. intros x Hx. apply Hties. right. exact Hx.
      * rewrite insert_Permutation. constructor; [left; exact Hlt|exact He'].
    + constructor; [constructor; assumption|].
      apply Forall_forall. intros x Hx.
      assert (Hle : snd x <= snd e).
      { apply elem_of_cons in Hx as [->|Hx]; [exact Hge|].
        rewrite Forall_forall in He'. apply He', ranked_before_count in Hx. simpl in *. lia. }
      destruct (Nat.eq_dec (snd x) (snd e)) as [Heq|Hne].
      * apply Hties; assumption.
      * left. lia.
Qed.

Lemma sorted_desc_StronglySorted d :
  StronglySorted (ranked_before d) (FreqDist.sorted_desc d).
Proof.
  induction d as [|e d IH]; [constructor|].
  unfold FreqDist.sorted_desc in *. cbn [foldr]. apply insert_StronglySorted.
  - eapply StronglySorted_weaken; [|exact IH]. apply ranked_before_cons.
  - intros x Hx Heq. right. split; [symmetry; exact Heq|].
    exists [], d. split; [reflexivity|].
    rewrite <- (sorted_desc_Permutation d). exact Hx.
Qed.

(** The items [most_common] returns: at most [n], all from [d], each
    ranked before the ones that follow it. *)
Lemma most_common_spec n d :
  length (FreqDist.most_common n d) <= n
  /\ FreqDist.most_common n d ⊆ d
  /\ StronglySorted (ranked_before d) (FreqDist.most_common n d).
Proof.
  unfold FreqDist.most_common. split; [rewrite length_take; lia|]. split.
  - intros x Hx. apply elem_of_take in Hx as (i & Hx & _).
    rewrite <- (sorted_desc_Permutation d). eapply list_elem_of_lookup_2, Hx.
  - pose proof (sorted_desc_StronglySorted d) as H.
    rewrite <- (take_drop n (FreqDist.sorted_desc d)) in H.
    eapply StronglySorted_app_1_l, H.
Qed.

(** ** Cell 19: the co-occurrence vocabulary *)

Section Vocabulary.

Variable stopwords : list string.

Local Abbreviation content := (is_content stopwords).

Lemma content_spec t : content t <-> (t ∉ stopwords) /\ 2 <= String.length t.
Proof.
  unfold is_content. rewrite andb_true_iff, negb_true_iff, Nat.ltb_lt.
  rewrite <- not_true_iff_false, mem_true. reflexivity.
Qed.

Lemma content_words_filter ctx :
  content_words stopwords ctx = filter content (map fst ctx).
Proof.
  unfold content_words. induction ctx as [|w ctx IH]; [reflexivity|].
  cbn [map]. rewrite (filter_cons content), filter_cons.
  repeat case_decide; try (exfalso; unfold is_content in *; contradiction);
    cbn [map]; [f_equal|]; exact IH.
Qed.

Lemma window_tokens_cons_eq classword inst rest l r :
  SensevalInstance.word inst = classword ->
  extract_context (SensevalInstance.position inst) (SensevalInstance.context inst) context
    = Some (l, r) ->
  window_tokens classword (inst :: rest)
  = (map fst l ++ map fst r) ++ window_tokens classword rest.
Proof.
  intros Hw Hctx. unfold window_tokens. rewrite filter_cons, decide_True by assumption.
  cbn [mbind list_bind]. unfold window_of at 1. rewrite Hctx. reflexivity.
Qed.

Lemma window_tokens_cons_ne classword inst rest :
  SensevalInstance.word inst <> classword ->
  window_tokens classword (inst :: rest) = window_tokens classword rest.
Proof.
  intros Hw. unfold window_tokens. rewrite filter_cons, decide_False by assumption.
  reflexivity.
Qed.

Lemma lemmas_loop_spec classword instances acc lemmas :
  lemmas_loop stopwords classword instances acc = Some lemmas ->
  lemmas = acc ++ filter content (window_tokens classword instances).
Proof.
  revert acc. induction instances as [|inst rest IH]; intros acc.
  - simpl. intros [= <-]. rewrite app_nil_r. reflexivity.
  - cbn [lemmas_loop]. destruct (String.eqb_spec classword (SensevalInstance.word inst)) as [Hw|Hw].
    + destruct (extract_context _ _ _) as [[l r]|] eqn:Hctx; [|discriminate].
      cbn [mbind option_bind]. intros ->%IH.
      rewrite (window_tokens_cons_eq _ _ _ l r) by auto.
      rewrite !filter_app, !content_words_filter, <- !app_assoc. reflexivity.
    + intros ->%IH. rewrite window_tokens_cons_ne by auto. reflexivity.
Qed.

Lemma lemmas_loop_total classword instances acc :
  tokenizable instances ->
  is_Some (lemmas_loop stopwords classword instances acc).
Proof.
  intros Htok. revert acc. induction Htok as [|inst rest Hinst _ IH]; intros acc.
  - simpl. eauto.
  - cbn [lemmas_loop]. destruct (String.eqb _ _); [|apply IH].
    rewrite (extract_context_Some _ _ context Hinst). cbn [mbind option_bind]. apply IH.
Qed.

Lemma occurrences_filter (P : string -> Prop) `{forall x, Decision (P x)} a l :
  P a -> occurrences a (filter P l) = occurrences a l.
Proof.
  intros Ha. unfold occurrences. f_equal.
  induction l as [|x l IH]; [reflexivity|].
  rewrite (filter_cons P). destruct (decide (P x)) as [Hx|Hx].
  - rewrite !filter_cons, IH. reflexivity.
  - rewrite IH, (filter_cons (fun y => y = a)), decide_False; [reflexivity|].
    intros ->. contradiction.
Qed.

Lemma first_occurrence_unique (a : string) l1 l2 l1' l2' :
  l1 ++ a :: l2 = l1' ++ a :: l2' -> a ∉ l1 -> a ∉ l1' -> l1 = l1'.
Proof.
  revert l1'. induction l1 as [|x l1 IH]; intros [|x' l1'] Heq H1 H2.
  - reflexivity.
  - injection Heq as <- _. exfalso. apply H2. left.
  - injection Heq as -> _. exfalso. apply H1. left.
  - injection Heq as <- Heq. f_equal. apply (IH l1' Heq).
    + intros H. apply H1. right. exact H.
    + intros H. apply H2. right. exact H.
Qed.

Lemma first_before_filter (P : string -> Prop) `{forall x, Decision (P x)} a b l :
  P a -> P b -> first_before a b (filter P l) -> first_before a b l.
Proof.
  intros Pa Pb (l1 & l2 & Heq & Ha & Hb).
  assert (Hal : a ∈ l).
  { eapply (list_elem_of_filter P). rewrite Heq. apply elem_of_app. right. left. }
  apply list_elem_of_split_l in Hal as (L1 & L2 & -> & HaL).
  exists L1, L2. split; [reflexivity|]. split; [assumption|].
  rewrite filter_app, filter_cons, decide_True in Heq by assumption.
  assert (Hl1 : filter P L1 = l1).
  { eapply first_occurrence_unique; [exact Heq| |assumption].
    intros [_ Hin]%list_elem_of_filter. contradiction. }
  intros HbL. apply Hb. rewrite <- Hl1. apply list_elem_of_filter. auto.
Qed.

Lemma cooccurrences_of_spec classword instances vocabulary :
  cooccurrences_of stopwords classword instances = Some vocabulary ->
  let W := window_tokens classword instances in
  length vocabulary <= num_co_ocurrences
  /\ (forall t, t ∈ vocabulary -> (t ∉ stopwords) /\ 2 <= String.length t /\ t ∈ W)
  /\ (forall v1 a v2 b v3, vocabulary = v1 ++ a :: v2 ++ b :: v3 ->
        occurrences b W <= occurrences a W
        /\ (occurrences a W = occurrences b W -> first_before a b W)).
Proof.
  unfold cooccurrences_of.
  destruct (lemmas_loop _ _ _ _) as [lemmas|] eqn:Hloop; [|discriminate].
  apply lemmas_loop_spec in Hloop. rewrite app_nil_l in Hloop.
  cbn [mbind option_bind]. intros [= <-]. cbn zeta.
  set (W := window_tokens classword instances) in *.
  set (d := FreqDist.of_samples lemmas).
  destruct (most_common_spec num_co_ocurrences d) as (Hlen & Hsub & Hsorted).
  set (mc := FreqDist.most_common num_co_ocurrences d) in *.
  rewrite take_ge by (rewrite length_map; exact Hlen).
  assert (Hitem : forall e, e ∈ mc ->
            snd e = occurrences (fst e) W /\ content (fst e) /\ fst e ∈ W).
  { intros [t n] Hin. apply Hsub, of_samples_elem in Hin as [-> Hin].
    cbn [fst snd]. rewrite Hloop in Hin |- *.
    apply list_elem_of_filter in Hin as [Hc Hin].
    rewrite occurrences_filter by assumption. auto. }
  split; [rewrite length_map; exact Hlen|]. split.
  - intros t (e & -> & He)%list_elem_of_fmap.
    destruct (Hitem e He) as (_ & Hc%content_spec & HW). tauto.
  - intros v1 a v2 b v3 Hv.
    apply fmap_app_inv in Hv as (m1 & m2' & _ & Hm2 & Hmc).
    symmetry in Hm2. apply fmap_cons_inv in Hm2 as (e1 & m2'' & Ha & Hm2 & ->).
    symmetry in Hm2. apply fmap_app_inv in Hm2 as (m2 & m3' & _ & Hm3 & ->).
    symmetry in Hm3. apply fmap_cons_inv in Hm3 as (e2 & m3 & Hb & _ & ->).
    assert (He1 : e1 ∈ mc) by (rewrite Hmc; apply elem_of_app; right; left).
    assert (He2 : e2 ∈ mc).
    { rewrite Hmc. apply elem_of_app. right. right. apply elem_of_app. right. left. }
    destruct (Hitem e1 He1) as (Hn1 & Hc1 & _), (Hitem e2 He2) as (Hn2 & Hc2 & _).
    rewrite Hmc in Hsorted. apply StronglySorted_app_1_r in Hsorted.
    apply StronglySorted_cons in Hsorted as [Hfor _].
    rewrite Forall_forall in Hfor.
    assert (Hrank : ranked_before d e1 e2).
    { apply Hfor. apply elem_of_app. right. left. }
    subst a b. rewrite <- Hn1, <- Hn2. split; [eapply ranked_before_count, Hrank|].
    intros Heq. destruct Hrank as [Hlt|[_ (d1 & d2 & Hd & Hin)]]; [lia|].
    apply (first_before_filter content); [assumption..|]. rewrite <- Hloop.
    eapply (of_samples_keys_order lemmas (map fst d1) (fst e1) (map fst d2)).
    + fold d. rewrite Hd, map_app. reflexivity.
    + apply list_elem_of_fmap. eauto.
Qed.

End Vocabulary.

Lemma dict_get_set {V} k (v : V) d k' :
  Dict.get (Dict.set k v d) k' = if String.eqb k k' then Some v else Dict.get d k'.
Proof.
  induction d as [|[k0 v0] d IH].
  - reflexivity.
  - cbn [Dict.set]. destruct (String.eqb_spec k0 k) as [->|Hne].
    + cbn [Dict.get]. destruct (String.eqb k k'); reflexivity.
    + cbn [Dict.get]. rewrite IH.
      destruct (String.eqb_spec k0 k'), (String.eqb_spec k k'); congruence.
Qed.

Lemma cell19_loop_get stopwords classwords instances d0 d w vocabulary :
  cell19_loop stopwords classwords instances d0 = Some d ->
  Dict.get (co_occurrences_per_classword d) w = Some vocabulary ->
  cooccurrences_of stopwords w instances = Some vocabulary
  \/ Dict.get (co_occurrences_per_classword d0) w = Some vocabulary.
Proof.
  revert d0. induction classwords as [|cw rest IH]; intros d0.
  - simpl. intros [= <-]. auto.
  - cbn [cell19_loop].
    destruct (cooccurrences_of stopwords cw instances) as [co|] eqn:Hco; [|discriminate].
    cbn [mbind option_bind]. intros Hloop Hget.
    destruct (IH _ Hloop Hget) as [H|H]; [left; exact H|].
    cbn [co_occurrences_per_classword] in H. rewrite dict_get_set in H.
    destruct (String.eqb_spec cw w) as [->|Hne]; [|right; exact H].
    left. congruence.
Qed.

Lemma cell19_loop_total stopwords classwords instances d0 :
  tokenizable instances ->
  is_Some (cell19_loop stopwords classwords instances d0).
Proof.
  intros Htok. revert d0. induction classwords as [|cw rest IH]; intros d0.
  - simpl. eauto.
  - cbn [cell19_loop]. unfold cooccurrences_of.
    destruct (lemmas_loop_total stopwords cw instances [] Htok) as [lemmas ->].
    cbn [mbind option_bind]. apply IH.
Qed.

(** C9: cell 19 builds the dictionary of vocabularies whenever the
    contexts can be tokenised, and every vocabulary it builds for a target
    word has at most [num_co_ocurrences] = 12 entries, none a stop word,
    none shorter than two characters, all taken from the context windows
    of that word's instances; an entry is at least as frequent in those
    windows as every entry after it, and of two entries of equal frequency
    the one listed first is the one encountered first. *)
Theorem vocabulary_invariant (stopwords : list string) (label_sets : list label)
    (instances : list instance) :
  (tokenizable instances -> is_Some (cell19 stopwords label_sets instances))
  /\ forall d w vocabulary,
       cell19 stopwords label_sets instances = Some d ->
       Dict.get (co_occurrences_per_classword d) w = Some vocabulary ->
       let W := window_tokens w instances in
       length vocabulary <= num_co_ocurrences
       /\ num_co_ocurrences = 12
       /\ (forall t, t ∈ vocabulary ->
             (t ∉ stopwords) /\ 2 <= String.length t /\ t ∈ W)
       /\ (forall v1 a v2 b v3, vocabulary = v1 ++ a :: v2 ++ b :: v3 ->
             occurrences b W <= occurrences a W
             /\ (occurrences a W = occurrences b W -> first_before a b W)).
Proof.
  split; [apply cell19_loop_total|].
  intros d w vocabulary Hcell Hget.
  destruct (cell19_loop_get _ _ _ _ _ _ _ Hcell Hget) as [Hco|Hnone]; [|discriminate].
  destruct (cooccurrences_of_spec _ _ _ _ Hco) as (Hlen & Hcontent & Horder).
  cbn zeta. auto.
Qed.

Lemma vocabulary_invariant_witness :
  exists d,
    cell19 ["the"; "a"] [("bass-n", "music")] bass_windows = Some d
    /\ Dict.get (co_occurrences_per_classword d) "bass-n"
       = Some ["player"; "guitar"; "sound"]
    /\ occurrences "guitar" (window_tokens "bass-n" bass_windows)
       <= occurrences "player" (window_tokens "bass-n" bass_windows)
    /\ first_before "guitar" "sound" (window_tokens "bass-n" bass_windows).
Proof.
  eexists. split; [vm_compute; reflexivity|]. split; [reflexivity|].
  destruct (vocabulary_invariant ["the"; "a"] [("bass-n", "music")] bass_windows)
    as [_ H].
  destruct (H _ "bass-n" ["player"; "guitar"; "sound"] eq_refl eq_refl)
    as (_ & _ & _ & Horder).
  split.
  - apply (Horder [] "player" [] "guitar" ["sound"] eq_refl).
  - apply (Horder ["player"] "guitar" [] "sound" [] eq_refl). reflexivity.
Defined.

(** ** The notebook's recorded outputs *)

(** Cell 15: the context of [house] in the first instance of [hard.pos],
    with a window of 2. *)
Example cell15_output :
  extract_context 2
    [("clever", "NNP"); ("white", "NNP"); ("house", "NNP"); ("``", "``");
     ("spin", "VB"); ("doctors", "NNS"); ("''", "''"); ("are", "VBP")] context
  = Some ([("clever", "NNP"); ("white", "NNP")], [("spin", "VB"); ("doctors", "NNS")]).
Proof. reflexivity. Qed.

(** The pieces [WordPunctTokenizer] cuts a token into. *)
Example wordpunct_pieces :
  WordPunct.tokenize "low-and" = ["low"; "-"; "and"]
  /\ WordPunct.tokenize " don't  stop.. " = ["don"; "'"; "t"; "stop"; ".."]
  /\ WordPunct.tokenize "  " = [].
Proof. repeat split. Qed.

(** The window of two tokens on each side of [bass]. *)
Example bass_window :
  extract_context 2
    [("guitar", "NN"); ("and", "CC"); ("bass", "NN"); ("player", "NN"); ("stand", "VB")]
    context
  = Some ([("guitar", "NN"); ("and", "CC")], [("player", "NN"); ("stand", "VB")]).
Proof. reflexivity. Qed.

(** Twenty records of one label: four are held out and fifteen are
    trained on. *)
Example split_of_twenty :
  length (per_word_split (seq 0 20)).1 = 15
  /\ length (per_word_split (seq 0 20)).2 = 4.
Proof. split; reflexivity. Qed.

(** One Fisher-Yates pass over five elements. *)
Example shuffle_five :
  Random.shuffle [1; 2; 3; 4; 5] [3; 1; 0; 1] = ([3; 5; 1; 2; 4], []).
Proof. reflexivity. Qed.

(** ** Cell 13: the windows *)

Lemma slice_from_neg {A} (c : Z) (l : list A) :
  (0 < c)%Z -> Py.slice_from (- c) l = drop (length l - Z.to_nat c) l.
Proof.
  intros Hc. unfold Py.slice_from, Py.slice_bound.
  destruct (Z.ltb_spec (- c) 0); [|lia]. f_equal. lia.
Qed.

Lemma slice_to_pos {A} (c : Z) (l : list A) :
  (0 <= c)%Z -> Py.slice_to c l = take (Z.to_nat c) l.
Proof.
  intros Hc. rewrite <- (Z2Nat.id c) at 1 by assumption. apply slice_to_nat.
Qed.

Lemma slice_from_pos {A} (c : Z) (l : list A) :
  (0 <= c)%Z -> Py.slice_from c l = drop (Z.to_nat c) l.
Proof.
  intros Hc. rewrite <- (Z2Nat.id c) at 1 by assumption. apply slice_from_nat.
Qed.

Lemma extract_context_inv p text c l r :
  extract_context p text c = Some (l, r) ->
  exists tl tr,
    tokenize (Py.slice_to p text) = Some tl
    /\ tokenize (Py.slice_from (p + 1) text) = Some tr
    /\ l = Py.slice_from (- c) tl /\ r = Py.slice_to c tr.
Proof.
  unfold extract_context.
  destruct (tokenize (Py.slice_to p text)) as [tl|]; [|discriminate].
  destruct (tokenize (Py.slice_from (p + 1) text)) as [tr|]; [|discriminate].
  cbn [mbind option_bind]. intros [= <- <-]. eexists _, _. auto.
Qed.

(** X1: with a positive window size, neither window is longer than the
    window size, so the two together have at most twice as many entries. *)
Theorem extract_context_window_bounds (p : Z) (text : list tagged) (c : Z)
    (l r : list tagged) :
  (0 < c)%Z ->
  extract_context p text c = Some (l, r) ->
  length l <= Z.to_nat c /\ length r <= Z.to_nat c
  /\ (Z.of_nat (length l + length r) <= 2 * c)%Z.
Proof.
  intros Hc (tl & tr & _ & _ & -> & ->)%extract_context_inv.
  rewrite slice_from_neg, slice_to_pos by lia.
  rewrite length_drop, length_take. lia.
Qed.

Lemma extract_context_window_bounds_witness :
  length [("guitar", "NN"); ("and", "CC")] <= 2
  /\ length [("player", "NN"); ("stand", "VB")] <= 2.
Proof.
  destruct (extract_context_window_bounds 3
              [("a", "DT"); ("guitar", "NN"); ("and", "CC"); ("bass", "NN");
               ("player", "NN"); ("stand", "VB"); ("up", "RP")] 2
              [("guitar", "NN"); ("and", "CC")] [("player", "NN"); ("stand", "VB")])
    as (Hl & Hr & _); [lia|reflexivity|].
  split; assumption.
Defined.

(** X2: with a window size of 0 the right window is empty but the left
    window is the whole tokenised left context, because [l[-0:]] is
    [l[0:]]: the bound of twice the window size does not hold then. *)
Theorem extract_context_window_zero (p : Z) (text : list tagged) (l r : list tagged) :
  extract_context p text 0 = Some (l, r) ->
  r = [] /\ tokenize (Py.slice_to p text) = Some l.
Proof.
  intros (tl & tr & Hl & _ & -> & ->)%extract_context_inv.
  split; [apply (slice_to_nat 0)|]. rewrite Hl. f_equal. symmetry. apply (slice_from_nat 0).
Qed.

Lemma extract_context_window_zero_witness :
  tokenize (Py.slice_to 2 [("guitar", "NN"); ("and", "CC"); ("bass", "NN"); ("player", "NN")])
  = Some [("guitar", "NN"); ("and", "CC")].
Proof.
  apply (extract_context_window_zero 2
           [("guitar", "NN"); ("and", "CC"); ("bass", "NN"); ("player", "NN")]
           [("guitar", "NN"); ("and", "CC")] []).
  reflexivity.
Defined.

(** X3: a target at position 0 has an empty left window, and a target at
    the last position or beyond has an empty right window; neither case
    is an error. *)
Theorem extract_context_at_the_ends (text : list tagged) (c : Z) :
  Forall (fun w => blank w.1 = false) text ->
  (exists r, extract_context 0 text c = Some ([], r))
  /\ forall p, (Z.of_nat (length text) <= p + 1)%Z -> (0 <= p)%Z ->
       exists l, extract_context p text c = Some (l, []).
Proof.
  intros Htext. split.
  - rewrite (extract_context_Some _ _ _ Htext).
    assert (Hl : Py.slice_from (- c) (omap kept (Py.slice_to 0 text)) = []).
    { rewrite (slice_to_nat 0). unfold Py.slice_from. apply drop_nil. }
    eexists. apply f_equal. apply (f_equal2 pair); [exact Hl|reflexivity].
  - intros p Hp Hp0. rewrite (extract_context_Some _ _ _ Htext).
    assert (Hr : Py.slice_to c (omap kept (Py.slice_from (p + 1) text)) = []).
    { rewrite (slice_from_pos (p + 1)) by lia.
      rewrite (drop_ge text (Z.to_nat (p + 1))) by lia.
      unfold Py.slice_to. apply take_nil. }
    eexists. apply f_equal. apply (f_equal2 pair); [reflexivity|exact Hr].
Qed.

Lemma extract_context_at_the_ends_witness :
  exists l,
    extract_context 1 [("double", "JJ"); ("bass", "NN")] 2 = Some (l, []).
Proof.
  destruct (extract_context_at_the_ends [("double", "JJ"); ("bass", "NN")] 2) as [_ H].
  - repeat constructor.
  - apply (H 1%Z); simpl; lia.
Defined.

(** X4: the entry at a target position that is not negative is never
    read: replacing it, even by a blank token, leaves the result
    unchanged. *)
Theorem extract_context_ignores_target (p : Z) (text : list tagged) (c : Z) (w : tagged) :
  (0 <= p)%Z ->
  extract_context p (<[Z.to_nat p := w]> text) c = extract_context p text c.
Proof.
  intros Hp. unfold extract_context.
  rewrite !slice_to_pos, !slice_from_pos by lia.
  rewrite take_insert_ge by lia.
  rewrite drop_insert_lt by lia. reflexivity.
Qed.

Lemma extract_context_ignores_target_witness :
  extract_context 1 [("double", "JJ"); (" ", "NN"); ("solo", "NN")] 2
  = Some ([("double", "JJ")], [("solo", "NN")]).
Proof.
  apply (eq_trans (extract_context_ignores_target 1
                     [("double", "JJ"); ("bass", "NN"); ("solo", "NN")] 2 (" ", "NN")
                     ltac:(lia))).
  reflexivity.
Defined.

(** ** Cell 11: the tokens [tokenize] returns *)

Lemma lower_char_class c :
  WordPunct.classify (Chars.lower_char c) = WordPunct.classify c
  /\ Chars.is_upper (Chars.lower_char c) = false.
Proof. destruct c as [[] [] [] [] [] [] [] []]; vm_compute; auto. Qed.

Lemma not_upper_lower_char c : Chars.is_upper c = false -> Chars.lower_char c = c.
Proof. unfold Chars.lower_char. intros ->. reflexivity. Qed.

Lemma lower_all_of_class k s : all_of_class k (Chars.lower s) = all_of_class k s.
Proof.
  induction s as [|c s IH]; [reflexivity|].
  simpl. rewrite IH, (proj1 (lower_char_class c)). reflexivity.
Qed.

Lemma lower_no_upper s : all_chars (fun c => negb (Chars.is_upper c)) (Chars.lower s) = true.
Proof.
  induction s as [|c s IH]; [reflexivity|].
  simpl. rewrite IH, (proj2 (lower_char_class c)). reflexivity.
Qed.

Lemma strip_all_chars p s :
  all_chars p s = true -> all_chars p (Chars.strip_punctuation s) = true.
Proof.
  induction s as [|c s IH]; [reflexivity|].
  simpl. intros [Hc Hs]%andb_prop. destruct (Chars.is_punctuation c); [auto|].
  simpl. rewrite Hc. auto.
Qed.

Lemma strip_all_of_class k s :
  all_of_class k s = true -> all_of_class k (Chars.strip_punctuation s) = true.
Proof.
  induction s as [|c s IH]; [reflexivity|].
  simpl. intros [Hc Hs]%andb_prop. destruct (Chars.is_punctuation c); [auto|].
  simpl. rewrite Hc. auto.
Qed.

Lemma strip_no_punctuation s :
  all_chars (fun c => negb (Chars.is_punctuation c)) (Chars.strip_punctuation s) = true.
Proof.
  induction s as [|c s IH]; [reflexivity|].
  simpl. destruct (Chars.is_punctuation c) eqn:Hc; [assumption|].
  simpl. rewrite Hc. assumption.
Qed.

Lemma strip_id s :
  all_chars (fun c => negb (Chars.is_punctuation c)) s = true ->
  Chars.strip_punctuation s = s.
Proof.
  induction s as [|c s IH]; [reflexivity|].
  simpl. intros [Hc Hs]%andb_prop. apply negb_true_iff in Hc. rewrite Hc, IH; auto.
Qed.

Lemma lower_id s :
  all_chars (fun c => negb (Chars.is_upper c)) s = true -> Chars.lower s = s.
Proof.
  induction s as [|c s IH]; [reflexivity|].
  simpl. intros [Hc Hs]%andb_prop. apply negb_true_iff in Hc.
  rewrite not_upper_lower_char, IH; auto.
Qed.

Lemma class_no_space k s :
  k <> WordPunct.Space -> all_of_class k s = true ->
  all_chars (fun c => negb (Chars.is_space c)) s = true.
Proof.
  intros Hk. induction s as [|c s IH]; [reflexivity|].
  simpl. intros [Hc%cclass_eqb_eq Hs]%andb_prop. rewrite IH by assumption.
  rewrite andb_true_r. apply negb_true_iff. destruct (Chars.is_space c) eqn:Hsp; [|reflexivity].
  exfalso. apply Hk. rewrite <- Hc. apply classify_Space. auto using space_not_word.
Qed.

Lemma all_chars_and p q s :
  all_chars p s = true -> all_chars q s = true ->
  all_chars (fun c => p c && q c) s = true.
Proof.
  induction s as [|c s IH]; [reflexivity|].
  simpl. intros [-> Hp]%andb_prop [-> Hq]%andb_prop. simpl. auto.
Qed.

(** The first piece of a token that is not blank is not empty and all its
    characters are of one class, which is not white space. *)
Lemma norm_word_piece w nw :
  norm_word w = Some nw ->
  exists piece k,
    nw = Chars.strip_punctuation (Chars.lower piece)
    /\ k <> WordPunct.Space /\ all_of_class k piece = true.
Proof.
  intros Hn.
  assert (Hb : blank w = false).
  { destruct (blank w) eqn:Hb; [|reflexivity]. apply norm_word_None in Hb. congruence. }
  destruct (not_blank_decomposition w Hb)
    as (ws & piece & rest & k & -> & Hws & Hk & Hne & Hall & Hstop).
  rewrite (norm_word_first_piece ws piece rest k) in Hn by assumption.
  injection Hn as <-. eauto.
Qed.

Lemma wp_tokenize_cons2 c c' s :
  WordPunct.tokenize (String c (String c' s))
  = match WordPunct.classify c with
    | WordPunct.Space => WordPunct.tokenize (String c' s)
    | k =>
        if WordPunct.cclass_eqb (WordPunct.classify c') k then
          match WordPunct.tokenize (String c' s) with
          | t :: ts => String c t :: ts
          | [] => [String c EmptyString]
          end
        else String c EmptyString :: WordPunct.tokenize (String c' s)
    end.
Proof. reflexivity. Qed.

Lemma one_class_token k t :
  k <> WordPunct.Space -> t <> EmptyString -> all_of_class k t = true ->
  WordPunct.tokenize t = [t] /\ blank t = false.
Proof.
  intros Hk Hne Hall.
  assert (Htok : WordPunct.tokenize t = [t]).
  { destruct t as [|c t]; [congruence|]. clear Hne.
    revert c Hall. induction t as [|c' t IH]; intros c Hall.
    - cbn in *. apply andb_prop in Hall as [Hc%cclass_eqb_eq _].
      destruct (WordPunct.classify c); congruence.
    - cbn [all_of_class] in Hall. apply andb_prop in Hall as [Hc%cclass_eqb_eq Hall].
      rewrite wp_tokenize_cons2, (IH c' Hall), Hc.
      cbn [all_of_class] in Hall. apply andb_prop in Hall as [Hc' _].
      destruct k; [| |congruence]; rewrite Hc'; reflexivity. }
  split; [assumption|].
  destruct (blank t) eqn:Hb; [|reflexivity]. apply wp_tokenize_nil in Hb. congruence.
Qed.

Lemma tokenize_Some_inv text out :
  tokenize text = Some out ->
  Forall (fun w => blank w.1 = false) text /\ out = omap kept text.
Proof.
  intros Hout.
  assert (Hnb : Forall (fun w => blank w.1 = false) text).
  { apply Forall_forall. intros w Hw. destruct (blank w.1) eqn:Hb; [|reflexivity].
    assert (Hnone : tokenize text = None).
    { apply tokenize_None, Exists_exists. eauto. }
    congruence. }
  split; [assumption|]. rewrite (tokenize_kept _ Hnb) in Hout. congruence.
Qed.

Lemma kept_plain w e :
  kept w = Some e ->
  e.2 = w.2 /\ e.1 <> EmptyString /\ all_chars plain_char e.1 = true
  /\ exists k, k <> WordPunct.Space /\ all_of_class k e.1 = true.
Proof.
  unfold kept. destruct (norm_word w.1) as [nw|] eqn:Hn; [|discriminate].
  destruct (1 <=? String.length nw)%nat eqn:Hlen; [|discriminate].
  intros [= <-]. cbn [fst snd]. split; [reflexivity|].
  split; [intros ->; discriminate|].
  destruct (norm_word_piece _ _ Hn) as (piece & k & -> & Hk & Hall).
  assert (Hclass : all_of_class k (Chars.strip_punctuation (Chars.lower piece)) = true).
  { apply strip_all_of_class. rewrite lower_all_of_class. assumption. }
  split; [|eauto].
  unfold plain_char. repeat apply all_chars_and.
  - apply strip_no_punctuation.
  - apply strip_all_chars, lower_no_upper.
  - eapply class_no_space; eassumption.
Qed.

Lemma kept_fixed_point w e : kept w = Some e -> kept e = Some e.
Proof.
  intros (_ & Hne & Hplain & k & Hk & Hall)%kept_plain.
  destruct e as [t tag]. cbn [fst] in *.
  destruct (one_class_token k t Hk Hne Hall) as [Htok _].
  unfold kept, norm_word. cbn [fst snd]. rewrite Htok.
  assert (Hp : all_chars (fun c => negb (Chars.is_punctuation c)) t = true
               /\ all_chars (fun c => negb (Chars.is_upper c)) t = true).
  { clear -Hplain. induction t as [|c t IH]; [auto|].
    cbn [all_chars] in *. apply andb_prop in Hplain as [Hc Ht].
    unfold plain_char in Hc. apply andb_prop in Hc as [[Hc1 Hc2]%andb_prop _].
    destruct (IH Ht) as [-> ->]. rewrite Hc1, Hc2. auto. }
  destruct Hp as [Hp Hu]. rewrite (lower_id _ Hu), (strip_id _ Hp).
  destruct t; [congruence|reflexivity].
Qed.

Lemma omap_kept_elem (text : list tagged) (e : tagged) :
  e ∈ omap kept text -> exists w, w ∈ text /\ kept w = Some e.
Proof. intros (w & Hw & He)%list_elem_of_omap. eauto. Qed.

Lemma lower_char_ascii c : is_ascii c = true -> is_ascii (Chars.lower_char c) = true.
Proof. destruct c as [[] [] [] [] [] [] [] []]; vm_compute; auto. Qed.

Lemma all_chars_app p s1 s2 :
  all_chars p (s1 ++ s2)%string = all_chars p s1 && all_chars p s2.
Proof.
  induction s1 as [|c s1 IH]; [reflexivity|].
  rewrite append_String. cbn [all_chars]. rewrite IH, andb_assoc. reflexivity.
Qed.

Lemma lower_ascii s : all_chars is_ascii s = true -> all_chars is_ascii (Chars.lower s) = true.
Proof.
  induction s as [|c s IH]; [reflexivity|].
  cbn [Chars.lower all_chars]. intros [Hc Hs]%andb_prop.
  rewrite (lower_char_ascii c Hc), (IH Hs). reflexivity.
Qed.

Lemma kept_ascii w e :
  all_chars is_ascii w.1 = true -> kept w = Some e -> all_chars is_ascii e.1 = true.
Proof.
  intros Hw. unfold kept. destruct (norm_word w.1) as [nw|] eqn:Hn; [|discriminate].
  destruct (1 <=? String.length nw)%nat; [|discriminate]. intros [= <-]. cbn [fst].
  assert (Hb : blank w.1 = false).
  { destruct (blank w.1) eqn:Hb; [|reflexivity]. apply norm_word_None in Hb. congruence. }
  destruct (not_blank_decomposition w.1 Hb)
    as (ws & piece & rest & k & Heq & Hws & Hk & Hne & Hall & Hstop).
  rewrite Heq in Hn, Hw.
  rewrite (norm_word_first_piece ws piece rest k) in Hn by assumption.
  injection Hn as <-.
  rewrite !all_chars_app in Hw. apply andb_prop in Hw as [_ [Hp _]%andb_prop].
  apply strip_all_chars, lower_ascii, Hp.
Qed.

(** X5: on a context of ASCII tokens, every token [tokenize] returns is
    non-empty, ASCII, and free of punctuation, upper-case letters and
    white space; the tags it returns are tags of the input in their
    original order, and no entry is added. *)
Theorem tokenize_returns_plain_tokens (text out : list tagged) :
  ascii_text text ->
  tokenize text = Some out ->
  Forall (fun e => e.1 <> EmptyString /\ all_chars plain_char e.1 = true) out
  /\ ascii_text out
  /\ map snd out `sublist_of` map snd text
  /\ length out <= length text.
Proof.
  intros Hascii [_ ->]%tokenize_Some_inv. split; [|split; [|split]].
  - apply Forall_forall. intros e (w & _ & He)%omap_kept_elem.
    apply kept_plain in He. tauto.
  - apply Forall_forall. intros e (w & Hw & He)%omap_kept_elem.
    unfold ascii_text in Hascii. rewrite Forall_forall in Hascii.
    eapply kept_ascii; [apply Hascii, Hw|exact He].
  - clear Hascii. induction text as [|w text IH]; [constructor|].
    change (omap kept (w :: text))
      with (match kept w with Some y => y :: omap kept text | None => omap kept text end).
    destruct (kept w) as [e|] eqn:He.
    + apply kept_plain in He as [Htag _]. cbn [map]. rewrite Htag.
      apply sublist_skip, IH.
    + cbn [map]. apply sublist_cons, IH.
  - clear Hascii. induction text as [|w text IH]; [reflexivity|].
    change (omap kept (w :: text))
      with (match kept w with Some y => y :: omap kept text | None => omap kept text end).
    destruct (kept w); simpl; lia.
Qed.

Lemma tokenize_returns_plain_tokens_witness :
  Forall (fun e => e.1 <> EmptyString /\ all_chars plain_char e.1 = true)
         [("low", "JJ"); ("don", "VB")].
Proof.
  apply (tokenize_returns_plain_tokens
           [("Low-and", "JJ"); ("``", "``"); ("don't", "VB")]).
  - repeat constructor.
  - reflexivity.
Defined.

(** X6: on a context of ASCII tokens normalisation is idempotent:
    tokenising the output of [tokenize] again returns it unchanged. *)
Theorem tokenize_idempotent (text out : list tagged) :
  ascii_text text ->
  tokenize text = Some out -> tokenize out = Some out.
Proof.
  intros _ [_ ->]%tokenize_Some_inv.
  assert (Hfix : Forall (fun e => kept e = Some e) (omap kept text)).
  { apply Forall_forall. intros e (w & _ & He)%omap_kept_elem.
    eapply kept_fixed_point, He. }
  rewrite tokenize_kept.
  - f_equal. induction Hfix as [|e out He _ IH]; [reflexivity|].
    change (omap kept (e :: out))
      with (match kept e with Some y => y :: omap kept out | None => omap kept out end).
    rewrite He, IH. reflexivity.
  - eapply Forall_impl; [exact Hfix|]. intros e He. cbn beta in *.
    destruct (blank e.1) eqn:Hb; [|reflexivity].
    apply norm_word_None in Hb. unfold kept in He. rewrite Hb in He. discriminate.
Qed.

Lemma tokenize_idempotent_witness :
  tokenize [("low", "JJ"); ("don", "VB")] = Some [("low", "JJ"); ("don", "VB")].
Proof.
  apply (tokenize_idempotent [("Low-and", "JJ"); ("``", "``"); ("don't", "VB")]).
  - repeat constructor.
  - reflexivity.
Defined.

(** ** Cell 6: what the loader records *)

Lemma load_instance_lists st i :
  Loader.instances (Loader.load_instance st i)
  = Loader.instances st
    ++ replicate (length (senses_iter (SensevalInstance.senses i))) (length (Loader.heap st))
  /\ length (Loader.heap (Loader.load_instance st i)) = S (length (Loader.heap st))
  /\ Loader.labels_classes (Loader.load_instance st i)
     = Loader.labels_classes st ++ labels_of i.
Proof.
  unfold Loader.load_instance.
  set (ids := senses_iter (SensevalInstance.senses i)).
  set (st0 := Loader.mkState _ _ _).
  destruct (foldl_add_sense i (length (Loader.heap st)) st0 ids) as (Hh & Hi & Hl).
  cbn zeta in *. rewrite Hh, Hi, Hl. subst st0.
  cbn [Loader.heap Loader.instances Loader.labels_classes].
  split; [reflexivity|]. split; [|reflexivity].
  destruct (last ids); rewrite ?length_alter, length_app; simpl; lia.
Qed.

Lemma foldl_load_instance_lists st file :
  let st' := foldl Loader.load_instance st file in
  length (Loader.instances st')
  = length (Loader.instances st) + length (file ≫= labels_of)
  /\ length (Loader.heap st') = length (Loader.heap st) + length file
  /\ Loader.labels_classes st' = Loader.labels_classes st ++ (file ≫= labels_of).
Proof.
  cbn zeta. revert st. induction file as [|i file IH]; intros st.
  - simpl. rewrite app_nil_r. auto with arith.
  - cbn [foldl]. destruct (IH (Loader.load_instance st i)) as (Hi & Hh & Hl).
    destruct (load_instance_lists st i) as (Hi' & Hh' & Hl').
    rewrite Hi, Hh, Hl, Hi', Hh', Hl'.
    change ((i :: file) ≫= labels_of) with (labels_of i ++ (file ≫= labels_of)).
    rewrite !length_app, length_replicate. unfold labels_of at 2. rewrite length_map.
    rewrite <- app_assoc. simpl. repeat split; lia.
Qed.

Lemma load_lists_from st files :
  let st' := foldl (foldl Loader.load_instance) st files in
  length (Loader.instances st')
  = length (Loader.instances st) + length (concat files ≫= labels_of)
  /\ length (Loader.heap st') = length (Loader.heap st) + length (concat files)
  /\ Loader.labels_classes st' = Loader.labels_classes st ++ (concat files ≫= labels_of).
Proof.
  cbn zeta. revert st. induction files as [|file files IH]; intros st.
  - simpl. rewrite app_nil_r. auto with arith.
  - cbn [foldl concat]. destruct (IH (foldl Loader.load_instance st file)) as (Hi & Hh & Hl).
    destruct (foldl_load_instance_lists st file) as (Hi' & Hh' & Hl').
    cbn zeta in *. rewrite Hi, Hh, Hl, Hi', Hh', Hl', bind_app, !length_app, <- app_assoc.
    repeat split; lia.
Qed.

Lemma length_expansion i : length (expansion i) = length (labels_of i).
Proof.
  unfold expansion, labels_of. rewrite length_map.
  destruct (last _) as [id|] eqn:Hlast.
  - apply length_replicate.
  - apply last_None in Hlast. rewrite Hlast. reflexivity.
Qed.

(** X7: the loader records one label and one entry of [instances] for
    every sense of every corpus instance, in corpus order, and allocates
    one copy per corpus instance; an instance whose tuple of senses is
    empty is copied but neither stored nor labelled. *)
Theorem load_records_one_entry_per_sense (files : list (list instance)) :
  let st := Loader.load files in
  Loader.labels_classes st = concat files ≫= labels_of
  /\ length (Loader.instances st) = length (Loader.labels_classes st)
  /\ length (Loader.stored st) = length (Loader.instances st)
  /\ length (Loader.heap st) = length (concat files)
  /\ (forall i, SensevalInstance.senses i = SensesTuple [] ->
        expansion i = [] /\ labels_of i = []).
Proof.
  cbn zeta. destruct (load_lists_from Loader.init files) as (Hi & Hh & Hl).
  cbn zeta in *. fold (Loader.load files) in *. cbn in Hi, Hh, Hl.
  split; [assumption|]. split; [rewrite Hi, Hl; reflexivity|].
  split; [|split; [assumption|]].
  - rewrite load_stored, Hi. clear. induction (concat files) as [|i l IH]; [reflexivity|].
    change ((i :: l) ≫= expansion) with (expansion i ++ (l ≫= expansion)).
    change ((i :: l) ≫= labels_of) with (labels_of i ++ (l ≫= labels_of)).
    rewrite !length_app, IH, length_expansion. reflexivity.
  - intros i Hi0. unfold expansion, labels_of. rewrite Hi0. auto.
Qed.

Lemma labels_of_elem i w s :
  (w, s) ∈ labels_of i <->
  w = SensevalInstance.word i /\ s ∈ senses_iter (SensevalInstance.senses i).
Proof.
  unfold labels_of. rewrite list_elem_of_fmap. split.
  - intros (id & [= -> ->] & Hin). auto.
  - intros [-> Hin]. eauto.
Qed.

Lemma label_sets_elem (files : list (list instance)) (w s : string) :
  (w, s) ∈ Loader.label_sets (Loader.load files) <->
  exists i, i ∈ concat files
            /\ SensevalInstance.word i = w
            /\ s ∈ senses_iter (SensevalInstance.senses i).
Proof.
  unfold Loader.label_sets. rewrite elem_of_remove_dups.
  destruct (load_lists_from Loader.init files) as (_ & _ & Hl).
  cbn zeta in Hl. fold (Loader.load files) in Hl. cbn in Hl. rewrite Hl.
  rewrite list_elem_of_bind. split.
  - intros (i & [-> Hs]%labels_of_elem & Hi). eauto.
  - intros (i & Hi & <- & Hs). exists i. split; [|assumption].
    apply labels_of_elem. auto.
Qed.

(** X8: [label_sets] has no duplicates and holds exactly the pairs of a
    corpus instance's word with one of its senses. *)
Theorem label_sets_are_the_observed_pairs (files : list (list instance)) (w s : string) :
  NoDup (Loader.label_sets (Loader.load files))
  /\ ((w, s) ∈ Loader.label_sets (Loader.load files) <->
      exists i, i ∈ concat files
                /\ SensevalInstance.word i = w
                /\ s ∈ senses_iter (SensevalInstance.senses i)).
Proof.
  split; [apply NoDup_remove_dups|apply label_sets_elem].
Qed.




(** ** Cell 19: the vocabulary is a top-K list *)

Lemma most_common_left_out n d e :
  e ∈ d -> e ∉ FreqDist.most_common n d ->
  length (FreqDist.most_common n d) = n
  /\ forall e', e' ∈ FreqDist.most_common n d -> snd e <= snd e'.
Proof.
  unfold FreqDist.most_common. intros Hin Hout.
  pose proof (sorted_desc_StronglySorted d) as Hs.
  rewrite <- (sorted_desc_Permutation d) in Hin.
  rewrite <- (take_drop n (FreqDist.sorted_desc d)) in Hin, Hs.
  apply elem_of_app in Hin as [Hin|Hin]; [contradiction|].
  split.
  - apply length_take_le. destruct (Nat.le_gt_cases n (length (FreqDist.sorted_desc d)))
      as [Hle|Hgt]; [assumption|].
    rewrite drop_ge in Hin by lia. inversion Hin.
  - intros e' He'. eapply ranked_before_count.
    eapply StronglySorted_app_1_elem_of; eassumption.
Qed.

Lemma most_common_keys_NoDup n d :
  NoDup (map fst d) -> NoDup (map fst (FreqDist.most_common n d)).
Proof.
  intros Hnd. unfold FreqDist.most_common.
  apply (sublist_NoDup _ (map fst (FreqDist.sorted_desc d))).
  - rewrite sorted_desc_Permutation. assumption.
  - apply (fmap_sublist fst), sublist_take.
Qed.

Lemma cooccurrences_of_top stopwords classword instances vocabulary :
  cooccurrences_of stopwords classword instances = Some vocabulary ->
  let W := window_tokens classword instances in
  NoDup vocabulary
  /\ forall t, t ∈ W -> (t ∉ stopwords) -> 2 <= String.length t -> t ∉ vocabulary ->
       length vocabulary = num_co_ocurrences
       /\ forall v, v ∈ vocabulary -> occurrences t W <= occurrences v W.
Proof.
  unfold cooccurrences_of.
  destruct (lemmas_loop _ _ _ _) as [lemmas|] eqn:Hloop; [|discriminate].
  apply lemmas_loop_spec in Hloop. rewrite app_nil_l in Hloop.
  cbn [mbind option_bind]. intros [= <-]. cbn zeta.
  set (W := window_tokens classword instances) in *.
  set (d := FreqDist.of_samples lemmas).
  set (mc := FreqDist.most_common num_co_ocurrences d).
  assert (Hlen : length mc <= num_co_ocurrences).
  { unfold mc, FreqDist.most_common. rewrite length_take. lia. }
  rewrite take_ge by (rewrite length_map; exact Hlen).
  split; [apply most_common_keys_NoDup, of_samples_keys_NoDup|].
  intros t HW Hstop Hlong Hout.
  assert (Hc : is_content stopwords t) by (apply content_spec; auto).
  assert (Ht : t ∈ lemmas) by (rewrite Hloop; apply list_elem_of_filter; auto).
  apply of_samples_keys_elem, list_elem_of_fmap in Ht as ([t' n] & Heq & Hd).
  cbn in Heq. subst t'.
  destruct (most_common_left_out num_co_ocurrences d (t, n) Hd) as [Hfull Hle].
  { intros Hmc. apply Hout. apply list_elem_of_fmap. exists (t, n). auto. }
  fold mc in Hfull, Hle. split; [rewrite length_map; exact Hfull|].
  intros v ([v' m] & Heq & Hv)%list_elem_of_fmap. cbn in Heq. subst v'.
  specialize (Hle _ Hv). cbn in Hle.
  assert (Hsub : mc ⊆ d) by apply most_common_spec.
  apply of_samples_elem in Hd as [-> _].
  apply Hsub, of_samples_elem in Hv as [-> Hvl].
  rewrite Hloop in Hle, Hvl. apply list_elem_of_filter in Hvl as [Hcv _].
  rewrite !occurrences_filter in Hle by assumption. exact Hle.
Qed.

(** X10: a vocabulary built by cell 19 lists no word twice, and it is a
    top-K list: a content word of the windows (not a stop word, at least
    two characters) is left out only when the vocabulary is full, and
    then it is no more frequent than any word of the vocabulary. *)
Theorem vocabulary_is_top_k (stopwords : list string) (label_sets : list label)
    (instances : list instance) (d : dicts) (w : string) (vocabulary : list string) :
  cell19 stopwords label_sets instances = Some d ->
  Dict.get (co_occurrences_per_classword d) w = Some vocabulary ->
  let W := window_tokens w instances in
  NoDup vocabulary
  /\ forall t, t ∈ W -> (t ∉ stopwords) -> 2 <= String.length t -> t ∉ vocabulary ->
       length vocabulary = num_co_ocurrences
       /\ forall v, v ∈ vocabulary -> occurrences t W <= occurrences v W.
Proof.
  intros Hcell Hget.
  destruct (cell19_loop_get _ _ _ _ _ _ _ Hcell Hget) as [Hco|Hnone]; [|discriminate].
  exact (cooccurrences_of_top _ _ _ _ Hco).
Qed.

Lemma vocabulary_is_top_k_witness :
  NoDup ["player"; "guitar"; "sound"].
Proof.
  destruct (cell19 ["the"; "a"] [("bass-n", "music")] bass_windows) as [d|] eqn:Hd;
    [|discriminate Hd].
  apply (vocabulary_is_top_k ["the"; "a"] [("bass-n", "music")] bass_windows d "bass-n"
           ["player"; "guitar"; "sound"] Hd).
  vm_compute in Hd. injection Hd as <-. reflexivity.
Defined.

(** ** Cell 19: the keys of the dictionaries *)

Lemma dict_keys_set {V} k (v : V) d :
  Dict.keys (Dict.set k v d)
  = if decide (k ∈ Dict.keys d) then Dict.keys d else Dict.keys d ++ [k].
Proof.
  unfold Dict.keys. induction d as [|[k0 v0] d IH]; [reflexivity|].
  cbn [Dict.set]. destruct (String.eqb_spec k0 k) as [->|Hne].
  - cbn [map fst]. rewrite decide_True by left. reflexivity.
  - cbn [map fst]. rewrite IH. destruct (decide (k ∈ map fst d)) as [Hin|Hin].
    + rewrite decide_True by (right; exact Hin). reflexivity.
    + rewrite decide_False; [reflexivity|].
      intros [H|H]%elem_of_cons; congruence.
Qed.

Lemma cell19_loop_preserves stopwords classwords instances d0 d k :
  cell19_loop stopwords classwords instances d0 = Some d ->
  k ∉ classwords ->
  Dict.get (co_occurrences_per_classword d) k = Dict.get (co_occurrences_per_classword d0) k
  /\ Dict.get (train_set_per_class d) k = Dict.get (train_set_per_class d0) k
  /\ Dict.get (test_set_per_class d) k = Dict.get (test_set_per_class d0) k.
Proof.
  revert d0. induction classwords as [|cw rest IH]; intros d0.
  - simpl. intros [= <-]. auto.
  - cbn [cell19_loop].
    destruct (cooccurrences_of stopwords cw instances) as [co|]; [|discriminate].
    cbn [mbind option_bind]. intros Hloop Hk.
    apply not_elem_of_cons in Hk as [Hne Hk].
    destruct (IH _ Hloop Hk) as (-> & -> & ->).
    cbn [co_occurrences_per_classword train_set_per_class test_set_per_class].
    rewrite !dict_get_set.
    destruct (String.eqb_spec cw k); [congruence|auto].
Qed.

Lemma cell19_loop_keys stopwords classwords instances d0 d :
  cell19_loop stopwords classwords instances d0 = Some d ->
  NoDup classwords ->
  (forall k, k ∈ classwords ->
     (k ∉ Dict.keys (co_occurrences_per_classword d0))
     /\ (k ∉ Dict.keys (train_set_per_class d0))
     /\ (k ∉ Dict.keys (test_set_per_class d0))) ->
  Dict.keys (co_occurrences_per_classword d)
    = Dict.keys (co_occurrences_per_classword d0) ++ classwords
  /\ Dict.keys (train_set_per_class d) = Dict.keys (train_set_per_class d0) ++ classwords
  /\ Dict.keys (test_set_per_class d) = Dict.keys (test_set_per_class d0) ++ classwords
  /\ forall k, k ∈ classwords ->
       exists vocabulary,
         cooccurrences_of stopwords k instances = Some vocabulary
         /\ Dict.get (co_occurrences_per_classword d) k = Some vocabulary
         /\ Dict.get (train_set_per_class d) k = Some []
         /\ Dict.get (test_set_per_class d) k = Some [].
Proof.
  revert d0. induction classwords as [|cw rest IH]; intros d0.
  - simpl. intros [= <-] _ _. rewrite !app_nil_r.
    repeat split. intros k Hk. inversion Hk.
  - cbn [cell19_loop].
    destruct (cooccurrences_of stopwords cw instances) as [co|] eqn:Hco; [|discriminate].
    cbn [mbind option_bind]. intros Hloop [Hcw Hnd]%NoDup_cons Hfresh.
    destruct (Hfresh cw) as (Hf1 & Hf2 & Hf3); [left|].
    set (d1 := mkDicts _ _ _) in Hloop.
    assert (Hk1 : Dict.keys (co_occurrences_per_classword d1)
                  = Dict.keys (co_occurrences_per_classword d0) ++ [cw]
                  /\ Dict.keys (train_set_per_class d1)
                     = Dict.keys (train_set_per_class d0) ++ [cw]
                  /\ Dict.keys (test_set_per_class d1)
                     = Dict.keys (test_set_per_class d0) ++ [cw]).
    { subst d1. cbn [co_occurrences_per_classword train_set_per_class test_set_per_class].
      rewrite !dict_keys_set, !decide_False by assumption. auto. }
    destruct Hk1 as (Hk1 & Hk2 & Hk3).
    destruct (IH d1 Hloop Hnd) as (Hkeys1 & Hkeys2 & Hkeys3 & Hget).
    { intros k Hk. rewrite Hk1, Hk2, Hk3.
      destruct (Hfresh k) as (H1 & H2 & H3); [right; exact Hk|].
      assert (k <> cw) by (intros ->; contradiction).
      rewrite !not_elem_of_app, !list_elem_of_singleton. tauto. }
    rewrite Hkeys1, Hkeys2, Hkeys3, Hk1, Hk2, Hk3, <- !app_assoc.
    repeat split; try reflexivity.
    intros k [->|Hk]%elem_of_cons; [|auto].
    destruct (cell19_loop_preserves _ _ _ _ _ cw Hloop Hcw) as (-> & -> & ->).
    exists co. subst d1.
    cbn [co_occurrences_per_classword train_set_per_class test_set_per_class].
    rewrite !dict_get_set, String.eqb_refl. auto.
Qed.

(** X11: after cell 19 each of the three dictionaries has exactly one
    key per distinct word of [label_sets]; for the word of every label the
    vocabulary is present and both sets are initialised to the empty list,
    so the look-ups of cell 23 never miss. *)
Theorem cell19_fills_every_class_word (stopwords : list string) (label_sets : list label)
    (instances : list instance) (d : dicts) :
  cell19 stopwords label_sets instances = Some d ->
  Dict.keys (co_occurrences_per_classword d) = remove_dups (map fst label_sets)
  /\ Dict.keys (train_set_per_class d) = remove_dups (map fst label_sets)
  /\ Dict.keys (test_set_per_class d) = remove_dups (map fst label_sets)
  /\ forall l, l ∈ label_sets ->
       exists vocabulary,
         cooccurrences_of stopwords l.1 instances = Some vocabulary
         /\ Dict.get (co_occurrences_per_classword d) l.1 = Some vocabulary
         /\ Dict.get (train_set_per_class d) l.1 = Some []
         /\ Dict.get (test_set_per_class d) l.1 = Some [].
Proof.
  intros Hcell. unfold cell19 in Hcell.
  destruct (cell19_loop_keys _ _ _ _ _ Hcell) as (H1 & H2 & H3 & Hget).
  - apply NoDup_remove_dups.
  - intros k _. cbn. repeat split; intros H; inversion H.
  - split; [exact H1|]. split; [exact H2|]. split; [exact H3|].
    intros l Hl. apply Hget. apply elem_of_remove_dups, list_elem_of_fmap. eauto.
Qed.

Lemma cell19_fills_every_class_word_witness :
  exists d,
    cell19 ["the"; "a"] [("bass-n", "music")] bass_windows = Some d
    /\ Dict.keys (train_set_per_class d) = ["bass-n"].
Proof.
  destruct (cell19 ["the"; "a"] [("bass-n", "music")] bass_windows) as [d|] eqn:Hd;
    [|discriminate Hd].
  exists d. split; [reflexivity|].
  apply (cell19_fills_every_class_word ["the"; "a"] [("bass-n", "music")] bass_windows d Hd).
Defined.

(** ** Cell 23: feature records *)

Lemma index_None {A} (l : list A) (i : Z) :
  Py.index l i = None <-> (i < - Z.of_nat (length l) \/ Z.of_nat (length l) <= i)%Z.
Proof.
  unfold Py.index. destruct (Z.ltb_spec i 0) as [Hneg|Hpos].
  - destruct (Z.ltb_spec (i + Z.of_nat (length l)) 0) as [Hlow|Hok].
    + split; [lia|reflexivity].
    + rewrite lookup_ge_None. lia.
  - rewrite lookup_ge_None. lia.
Qed.

Lemma window_lengths p text c l r :
  (0 < c)%Z ->
  extract_context p text c = Some (l, r) ->
  length l <= Z.to_nat c /\ length r <= Z.to_nat c.
Proof.
  intros Hc (tl & tr & _ & _ & -> & ->)%extract_context_inv.
  rewrite slice_from_neg, slice_to_pos by lia.
  rewrite length_drop, length_take. lia.
Qed.

Lemma entries_beside {A} (P : A -> Prop) (text : list A) (p : nat) :
  Exists P (take p text ++ drop (S p) text) <->
  exists i w, text !! i = Some w /\ i <> p /\ P w.
Proof.
  rewrite Exists_exists. split.
  - intros (w & [Hw|Hw]%elem_of_app & HP).
    + apply elem_of_take in Hw as (i & Hi & Hlt).
      exists i, w. repeat split; [assumption|lia|assumption].
    + apply list_elem_of_lookup in Hw as [j Hj]. rewrite lookup_drop in Hj.
      exists (S p + j), w. repeat split; [assumption|lia|assumption].
  - intros (i & w & Hi & Hne & HP). exists w. split; [|assumption].
    apply elem_of_app. destruct (Nat.lt_ge_cases i p) as [Hlt|Hge].
    + left. apply elem_of_take. eauto.
    + right. apply list_elem_of_lookup. exists (i - S p).
      rewrite lookup_drop. replace (S p + (i - S p)) with i by lia. assumption.
Qed.

(** X12: building the record of an instance raises [IndexError] exactly
    when the target position [p] is outside the context (below [-n] or at
    least [n] for a context of [n] entries) or an entry of [text[:p]] or
    of [text[p+1:]] has a blank token.  For a position that is not
    negative those are the entries at an index other than [p], so that
    the call raises exactly when [p] is at least [n] or an entry other
    than the target's is blank; for a negative position the two slices can
    include the target entry itself. *)
Theorem feature_of_raises_iff (l : label) (vocabulary : list string) (inst : instance) :
  let text := SensevalInstance.context inst in
  let p := SensevalInstance.position inst in
  (feature_of l vocabulary inst = None <->
   (p < - Z.of_nat (length text) \/ Z.of_nat (length text) <= p)%Z
   \/ Exists (fun w => blank w.1 = true)
             (Py.slice_to p text ++ Py.slice_from (p + 1) text))
  /\ ((0 <= p)%Z ->
      (feature_of l vocabulary inst = None <->
       (Z.of_nat (length text) <= p)%Z
       \/ exists i w, text !! i = Some w /\ Z.of_nat i <> p /\ blank w.1 = true)).
Proof.
  cbn zeta.
  assert (Hiff : feature_of l vocabulary inst = None <->
            (SensevalInstance.position inst < - Z.of_nat (length (SensevalInstance.context inst))
             \/ Z.of_nat (length (SensevalInstance.context inst))
                <= SensevalInstance.position inst)%Z
            \/ Exists (fun w => blank w.1 = true)
                 (Py.slice_to (SensevalInstance.position inst) (SensevalInstance.context inst)
                  ++ Py.slice_from (SensevalInstance.position inst + 1)
                       (SensevalInstance.context inst))).
  { rewrite <- index_None, <- (extract_context_None _ _ context).
    unfold feature_of.
    destruct (Py.index _ _) as [w|]; cbn [mbind option_bind]; [|tauto].
    destruct (extract_context _ _ _) as [[lc rc]|]; cbn [mbind option_bind].
    - split; [discriminate|]. intros [H|H]; discriminate.
    - tauto. }
  split; [exact Hiff|]. intros Hp. rewrite Hiff.
  rewrite slice_to_pos, slice_from_pos by lia.
  replace (Z.to_nat (SensevalInstance.position inst + 1))
    with (S (Z.to_nat (SensevalInstance.position inst))) by lia.
  rewrite entries_beside. split.
  - intros [[H|H]|(i & w & Hi & Hne & Hb)]; [lia|left; exact H|].
    right. exists i, w. repeat split; [assumption|lia|assumption].
  - intros [H|(i & w & Hi & Hne & Hb)]; [left; right; exact H|].
    right. exists i, w. repeat split; [assumption|lia|assumption].
Qed.

Lemma feature_of_raises_iff_witness :
  feature_of ("bass-n", "music") []
    (SensevalInstance.mk "bass-n" 1 [("double", "JJ"); ("bass", "NN"); (" ", "NN")]
                         (SensesStr "music")) = None.
Proof.
  apply (proj2 (feature_of_raises_iff ("bass-n", "music") []
                  (SensevalInstance.mk "bass-n" 1
                     [("double", "JJ"); ("bass", "NN"); (" ", "NN")] (SensesStr "music")))).
  - simpl. lia.
  - right. exists 2, (" ", "NN"). repeat split. simpl. lia.
Defined.

(** X13: every record cell 23 builds carries the label it was built for,
    has as many POS tags as context tokens, at most four of them (two
    windows of size [context] = 2), and one bit, 0 or 1, per vocabulary
    word. *)
Theorem feature_record_schema (l l' : label) (vocabulary : list string)
    (inst : instance) (fr : Features.t) :
  feature_of l vocabulary inst = Some (fr, l') ->
  l' = l
  /\ length (Features.context fr) = length (Features.pos_context fr)
  /\ length (Features.context fr) <= 4
  /\ length (Features.co_occ fr) = length vocabulary
  /\ Forall (fun b => b = 0 \/ b = 1) (Features.co_occ fr).
Proof.
  unfold feature_of. destruct (Py.index _ _) as [w|]; [|discriminate].
  cbn [mbind option_bind].
  destruct (extract_context _ _ _) as [[lc rc]|] eqn:Hctx; [|discriminate].
  cbn [mbind option_bind]. intros [= <- <-]. split; [reflexivity|].
  destruct (window_lengths _ _ context lc rc eq_refl Hctx) as [Hl Hr].
  unfold extract_features.
  cbn [Features.context Features.pos_context Features.co_occ].
  rewrite !length_app, !length_map. split; [reflexivity|].
  assert (Hc : Z.to_nat context = 2) by reflexivity.
  rewrite Hc in Hl, Hr.
  split; [exact (Nat.add_le_mono _ 2 _ 2 Hl Hr)|]. split; [reflexivity|].
  apply Forall_forall. intros b (v & -> & _)%list_elem_of_fmap.
  destruct (Py.mem _ _); auto.
Qed.

Lemma feature_record_schema_witness :
  length ["telephone"; "open"] = length ["NN"; "JJ"]
  /\ length ["telephone"; "open"] <= 4.
Proof.
  destruct (feature_record_schema ("line-n", "phone") ("line-n", "phone") ["telephone"]
              (SensevalInstance.mk "line-n" 1
                 [("telephone", "NN"); ("lines", "NNS"); ("open", "JJ")] (SensesStr "phone"))
              (Features.mk "lines" [1] ["telephone"; "open"] ["NN"; "JJ"]))
    as (_ & Heq & Hle & _); [reflexivity|].
  split; assumption.
Defined.

(** X14: a label with fewer than five records gets no test record, and
    from a label with a single record nothing is kept at all: the only
    record is the one the split skips. *)
Theorem per_word_split_of_few_records {A} (feature_sets : list A) :
  length feature_sets < 5 ->
  per_word_split feature_sets = (drop 1 feature_sets, [])
  /\ (length feature_sets = 1 -> per_word_split feature_sets = ([], [])).
Proof.
  intros Hlen. rewrite per_word_split_eq.
  rewrite (Nat.div_small (length feature_sets) 5) by assumption.
  split; [reflexivity|].
  intros H1. destruct feature_sets as [|x [|y fs]]; try discriminate. reflexivity.
Qed.

Lemma per_word_split_of_few_records_witness :
  per_word_split [7] = ([], []).
Proof.
  apply (per_word_split_of_few_records [7]); simpl; lia.
Defined.

(** ** Cell 23: the per-word sets *)

Lemma get_list_extend {A} k (l : list A) d k' :
  Dict.get_list (Dict.extend k l d) k'
  = if String.eqb k k' then Dict.get_list d k ++ l else Dict.get_list d k'.
Proof.
  unfold Dict.extend, Dict.get_list at 1. rewrite dict_get_set.
  destruct (String.eqb k k'); reflexivity.
Qed.

Lemma dict_keys_extend {A} k (l : list A) d :
  k ∈ Dict.keys d -> Dict.keys (Dict.extend k l d) = Dict.keys d.
Proof.
  intros Hk. unfold Dict.extend. rewrite dict_keys_set, decide_True by assumption.
  reflexivity.
Qed.

Lemma feature_loop_nil l v insts fs :
  feature_loop l v insts [] = Some fs ->
  mapM (feature_of l v) (filter (fun i => selected l i = true) insts) = Some fs.
Proof.
  rewrite feature_loop_spec. destruct (mapM _ _) as [fs'|]; [|discriminate].
  simpl. congruence.
Qed.

Lemma feature_of_label l v inst it : feature_of l v inst = Some it -> it.2 = l.
Proof.
  unfold feature_of. destruct (Py.index _ _); [|discriminate].
  cbn [mbind option_bind]. destruct (extract_context _ _ _) as [[? ?]|]; [|discriminate].
  intros [= <-]. reflexivity.
Qed.

Lemma per_word_split_parts {A} (fs : list A) :
  (per_word_split fs).1 ⊆ fs /\ (per_word_split fs).2 ⊆ fs
  /\ length (per_word_split fs).1 + length (per_word_split fs).2 = length fs - 1
  /\ length (per_word_split fs).2 = length fs / 5.
Proof.
  rewrite per_word_split_eq. cbn [fst snd].
  assert (Hdiv : length fs / 5 <= length fs) by (apply Nat.Div0.div_le_upper_bound; lia).
  split; [apply subseteq_drop|]. split; [apply subseteq_take|].
  rewrite length_drop, length_take.
  assert (Hlt : length fs = 0 \/ length fs / 5 < length fs).
  { destruct fs as [|x fs]; [left; reflexivity|right]. apply Nat.div_lt; simpl; lia. }
  destruct Hlt as [H0|Hlt]; [rewrite H0; split; reflexivity|lia].
Qed.

Lemma cell23_loop_spec label_sets instances d g d' g' :
  cell23_loop label_sets instances d g = Some (d', g') ->
  co_occurrences_per_classword d' = co_occurrences_per_classword d
  /\ forall w, exists tr te,
       Dict.get_list (train_set_per_class d') w
         = Dict.get_list (train_set_per_class d) w ++ tr
       /\ Dict.get_list (test_set_per_class d') w
          = Dict.get_list (test_set_per_class d) w ++ te
       /\ Forall (built_for label_sets instances (co_occurrences_per_classword d) w)
                 (tr ++ te)
       /\ length tr + length te
          = sum_list (map (fun l => selected_count l instances - 1)
                          (labels_of_word w label_sets))
       /\ length te
          = sum_list (map (fun l => selected_count l instances / 5)
                          (labels_of_word w label_sets)).
Proof.
  revert d g. induction label_sets as [|l rest IH]; intros d g.
  - simpl. intros [= <- <-]. split; [reflexivity|]. intros w. exists [], [].
    rewrite !app_nil_r. repeat split. constructor.
  - cbn [cell23_loop].
    destruct (feature_loop l _ instances []) as [fs|] eqn:Hfs; [|discriminate].
    cbn [mbind option_bind].
    destruct (Random.shuffle fs g) as [fs' g1] eqn:Hsh.
    destruct (per_word_split fs') as [tr0 te0] eqn:Hsplit.
    intros Hloop. destruct (IH _ _ Hloop) as [Hco Hrest]. clear IH.
    cbn [co_occurrences_per_classword train_set_per_class test_set_per_class] in Hco, Hrest.
    split; [assumption|]. intros w.
    destruct (Hrest w) as (tr & te & Htr & Hte & Horigin & Hcount & Htest).
    rewrite !get_list_extend in Htr, Hte.
    assert (Hperm : fs' ≡ₚ fs).
    { pose proof (shuffle_Permutation fs g) as H. rewrite Hsh in H. exact H. }
    apply feature_loop_nil in Hfs.
    assert (Hn : length fs' = selected_count l instances).
    { rewrite Hperm. symmetry. eapply length_mapM, Hfs. }
    destruct (per_word_split_parts fs') as (Hsub1 & Hsub2 & Hlen & Hlen2).
    rewrite Hsplit in Hsub1, Hsub2, Hlen, Hlen2. cbn [fst snd] in *.
    assert (Hrest_origin :
      Forall (built_for (l :: rest) instances (co_occurrences_per_classword d) w) (tr ++ te)).
    { eapply Forall_impl; [exact Horigin|].
      intros it (l0 & inst & Hl0 & H). exists l0, inst. split; [right; exact Hl0|exact H]. }
    unfold labels_of_word in *. rewrite filter_cons.
    destruct (String.eqb_spec l.1 w) as [Hw|Hw].
    + rewrite decide_True by assumption. subst w.
      exists (tr0 ++ tr), (te0 ++ te). rewrite Htr, Hte, <- !app_assoc.
      split; [reflexivity|]. split; [reflexivity|]. split; [|split].
      * assert (Hfs_origin : forall it, it ∈ fs' ->
                  built_for (l :: rest) instances (co_occurrences_per_classword d) l.1 it).
        { intros it Hit. rewrite Hperm in Hit.
          apply list_elem_of_lookup in Hit as [n Hit].
          apply mapM_Some in Hfs.
          destruct (Forall2_lookup_r _ _ _ _ _ Hfs Hit) as (inst & Hinst & Hfeat).
          apply list_elem_of_lookup_2, list_elem_of_filter in Hinst as [Hsel Hin].
          exists l, inst. split; [left|]. split; [reflexivity|].
          split; [eapply feature_of_label, Hfeat|]. auto. }
        rewrite !Forall_app in *. destruct Hrest_origin as [H1 H2].
        repeat split; try assumption; apply Forall_forall; intros it Hit;
          apply Hfs_origin; auto.
      * cbn [map sum_list]. rewrite !length_app. unfold id.
        transitivity ((length tr0 + length te0) + (length tr + length te)); [lia|].
        f_equal; [rewrite Hlen, Hn; reflexivity|exact Hcount].
      * cbn [map sum_list]. rewrite !length_app. unfold id.
        f_equal; [rewrite Hlen2, Hn; reflexivity|exact Htest].
    + rewrite decide_False by assumption.
      exists tr, te. auto.
Qed.

Lemma notebook_inv stopwords files g d m :
  notebook stopwords files g = Some (d, m) ->
  exists d0 g',
    cell19 stopwords (Loader.label_sets (Loader.load files))
           (Loader.stored (Loader.load files)) = Some d0
    /\ cell23_loop (Loader.label_sets (Loader.load files))
                   (Loader.stored (Loader.load files)) d0 g = Some (d, g')
    /\ m = cell31 d g'.
Proof.
  unfold notebook. cbn zeta.
  destruct (cell19 _ _ _) as [d0|]; [|discriminate]. cbn [mbind option_bind].
  destruct (cell23_loop _ _ _ _) as [[d1 g']|] eqn:Hloop; [|discriminate].
  cbn [mbind option_bind]. intros [= <- <-]. exists d0, g'. auto.
Qed.

Lemma cell19_empty_sets stopwords label_sets instances d0 w :
  cell19 stopwords label_sets instances = Some d0 ->
  Dict.get_list (train_set_per_class d0) w = []
  /\ Dict.get_list (test_set_per_class d0) w = [].
Proof.
  unfold cell19. intros Hcell. unfold Dict.get_list.
  destruct (decide (w ∈ remove_dups (map fst label_sets))) as [Hin|Hout].
  - destruct (cell19_loop_keys _ _ _ _ _ Hcell) as (_ & _ & _ & Hget).
    + apply NoDup_remove_dups.
    + intros k _. cbn. repeat split; intros H; inversion H.
    + destruct (Hget w Hin) as (v & _ & _ & -> & ->). auto.
  - destruct (cell19_loop_preserves _ _ _ _ _ w Hcell Hout) as (_ & -> & ->). auto.
Qed.

Lemma notebook_per_word_sets stopwords files g d m w :
  notebook stopwords files g = Some (d, m) ->
  let label_sets := Loader.label_sets (Loader.load files) in
  let instances := Loader.stored (Loader.load files) in
  Forall (built_for label_sets instances (co_occurrences_per_classword d) w)
         (Dict.get_list (train_set_per_class d) w ++ Dict.get_list (test_set_per_class d) w)
  /\ length (Dict.get_list (train_set_per_class d) w)
     + length (Dict.get_list (test_set_per_class d) w)
     = sum_list (map (fun l => selected_count l instances - 1)
                     (labels_of_word w label_sets))
  /\ length (Dict.get_list (test_set_per_class d) w)
     = sum_list (map (fun l => selected_count l instances / 5)
                     (labels_of_word w label_sets)).
Proof.
  intros (d0 & g' & Hcell & Hloop & _)%notebook_inv. cbn zeta.
  destruct (cell23_loop_spec _ _ _ _ _ _ Hloop) as [Hco Hw].
  destruct (Hw w) as (tr & te & Htr & Hte & Horigin & Hcount & Htest).
  destruct (cell19_empty_sets _ _ _ _ w Hcell) as [H1 H2].
  rewrite H1 in Htr. rewrite H2 in Hte. rewrite Htr, Hte, Hco. cbn [app]. auto.
Qed.

(** X15: after cell 23 every item of a word's training or test set is the
    record built, against that word's vocabulary, for a stored instance
    selected for one of the word's labels, and it carries that label; no
    record of another word reaches the set. *)
Theorem per_word_sets_hold_own_records (stopwords : list string)
    (files : list (list instance)) (g : Random.state) (d : dicts)
    (m : list item * list item) (w : string) (it : item) :
  notebook stopwords files g = Some (d, m) ->
  it ∈ Dict.get_list (train_set_per_class d) w
  \/ it ∈ Dict.get_list (test_set_per_class d) w ->
  built_for (Loader.label_sets (Loader.load files)) (Loader.stored (Loader.load files))
            (co_occurrences_per_classword d) w it.
Proof.
  intros Hnb Hit. destruct (notebook_per_word_sets _ _ _ _ _ w Hnb) as [Hall _].
  rewrite Forall_forall in Hall. apply Hall, elem_of_app. exact Hit.
Qed.

Lemma per_word_sets_hold_own_records_witness :
  exists d m it,
    notebook [] bass_corpus identity_draws = Some (d, m)
    /\ built_for (Loader.label_sets (Loader.load bass_corpus))
                 (Loader.stored (Loader.load bass_corpus))
                 (co_occurrences_per_classword d) "bass-n" it.
Proof.
  destruct (notebook [] bass_corpus identity_draws) as [[d m]|] eqn:Hnb;
    [|vm_compute in Hnb; discriminate Hnb].
  destruct (Dict.get_list (test_set_per_class d) "bass-n") as [|it rest] eqn:Hte.
  - exfalso. vm_compute in Hnb. injection Hnb as <- _. discriminate Hte.
  - exists d, m, it. split; [reflexivity|].
    apply (per_word_sets_hold_own_records [] bass_corpus identity_draws d m "bass-n" it Hnb).
    right. rewrite Hte. left.
Defined.


(** X16: after cell 23 the two sets of a word hold, together, one record
    less than selected for every label of the word that has a selected
    instance, and the test set holds a fifth (rounded down) of each
    label's records. *)
Theorem per_word_sets_sizes (stopwords : list string) (files : list (list instance))
    (g : Random.state) (d : dicts) (m : list item * list item) (w : string) :
  notebook stopwords files g = Some (d, m) ->
  let label_sets := Loader.label_sets (Loader.load files) in
  let instances := Loader.stored (Loader.load files) in
  length (Dict.get_list (train_set_per_class d) w)
  + length (Dict.get_list (test_set_per_class d) w)
  = sum_list (map (fun l => selected_count l instances - 1) (labels_of_word w label_sets))
  /\ length (Dict.get_list (test_set_per_class d) w)
     = sum_list (map (fun l => selected_count l instances / 5) (labels_of_word w label_sets)).
Proof.
  intros Hnb. apply (notebook_per_word_sets _ _ _ _ _ w Hnb).
Qed.

Lemma per_word_sets_sizes_witness :
  exists d m,
    notebook [] bass_corpus identity_draws = Some (d, m)
    /\ length (Dict.get_list (train_set_per_class d) "bass-n")
       + length (Dict.get_list (test_set_per_class d) "bass-n") = 5.
Proof.
  destruct (notebook [] bass_corpus identity_draws) as [[d m]|] eqn:Hnb;
    [|vm_compute in Hnb; discriminate Hnb].
  exists d, m. split; [reflexivity|].
  destruct (per_word_sets_sizes [] bass_corpus identity_draws d m "bass-n" Hnb) as [H _].
  rewrite H. reflexivity.
Defined.

Lemma feature_of_well_formed l v inst :
  well_formed inst -> is_Some (feature_of l v inst).
Proof.
  intros [Hpos Hctx]. unfold feature_of.
  destruct (Py.index _ _) as [w|] eqn:Hidx.
  - cbn [mbind option_bind]. rewrite (extract_context_Some _ _ context Hctx).
    cbn [mbind option_bind]. eauto.
  - apply index_None in Hidx. lia.
Qed.

Lemma feature_loop_total l v insts acc :
  Forall well_formed insts -> is_Some (feature_loop l v insts acc).
Proof.
  intros Hwf. revert acc. induction Hwf as [|inst insts Hinst _ IH]; intros acc.
  - simpl. eauto.
  - cbn [feature_loop]. destruct (selected l inst); [|apply IH].
    destruct (feature_of_well_formed l v inst Hinst) as [f ->].
    cbn [mbind option_bind]. apply IH.
Qed.

Lemma cell23_loop_total label_sets insts d g :
  Forall well_formed insts -> is_Some (cell23_loop label_sets insts d g).
Proof.
  intros Hwf. revert d g. induction label_sets as [|l rest IH]; intros d g.
  - simpl. eauto.
  - cbn [cell23_loop].
    destruct (feature_loop_total l (Dict.get_list (co_occurrences_per_classword d) l.1)
                insts [] Hwf) as [fs ->].
    cbn [mbind option_bind].
    destruct (Random.shuffle fs g) as [fs' g1].
    destruct (per_word_split fs') as [tr te]. apply IH.
Qed.

Lemma stored_well_formed files :
  Forall well_formed (concat files) ->
  Forall well_formed (Loader.stored (Loader.load files)).
Proof.
  intros Hwf. rewrite load_stored. apply Forall_forall.
  intros inst (i & Hin & Hi)%list_elem_of_bind.
  rewrite Forall_forall in Hwf. specialize (Hwf i Hi).
  unfold expansion in Hin. destruct (last _); [|inversion Hin].
  apply elem_of_replicate in Hin as [-> _]. exact Hwf.
Qed.

(** X17: on a corpus in which every instance has its target position
    inside its context and no blank token, the data preparation returns
    its result without raising, whatever the stop words and the random
    draws: cell 6, cell 19, cell 23 and cell 31 up to
    [test_set = total[:divide]].  The classifier calls that follow in
    cells 29 and 31 are outside the embedding and not covered. *)
Theorem data_preparation_returns_on_well_formed_corpus (stopwords : list string)
    (files : list (list instance)) (g : Random.state) :
  Forall well_formed (concat files) ->
  is_Some (notebook stopwords files g).
Proof.
  intros Hwf%stored_well_formed. unfold notebook. cbn zeta.
  destruct (cell19_loop_total stopwords
              (remove_dups (map fst (Loader.label_sets (Loader.load files))))
              (Loader.stored (Loader.load files)) (mkDicts [] [] [])) as [d0 Hd0].
  { eapply Forall_impl; [exact Hwf|]. intros inst [_ H]. exact H. }
  unfold cell19. rewrite Hd0. cbn [mbind option_bind].
  destruct (cell23_loop_total (Loader.label_sets (Loader.load files))
              (Loader.stored (Loader.load files)) d0 g Hwf) as [[d g'] ->].
  cbn [mbind option_bind]. eauto.
Qed.

Lemma data_preparation_returns_on_well_formed_corpus_witness :
  is_Some (notebook ["the"] bass_corpus identity_draws).
Proof.
  apply (data_preparation_returns_on_well_formed_corpus ["the"] bass_corpus identity_draws).
  repeat constructor; simpl; lia.
Defined.

(** ** Cells 6 and 19 together *)

Lemma window_of_set_senses v i :
  window_of (SensevalInstance.set_senses v i) = window_of i.
Proof. reflexivity. Qed.

Lemma window_tokens_app w l1 l2 :
  window_tokens w (l1 ++ l2) = window_tokens w l1 ++ window_tokens w l2.
Proof. unfold window_tokens. rewrite filter_app, bind_app. reflexivity. Qed.

Lemma window_tokens_replicate w n inst :
  window_tokens w (replicate n inst)
  = if decide (SensevalInstance.word inst = w) then concat (replicate n (window_of inst))
    else [].
Proof.
  induction n as [|n IH].
  - destruct (decide _); reflexivity.
  - change (replicate (S n) inst) with ([inst] ++ replicate n inst).
    rewrite window_tokens_app, IH. unfold window_tokens.
    rewrite filter_cons, filter_nil.
    destruct (decide (SensevalInstance.word inst = w)); [|reflexivity].
    cbn. rewrite app_nil_r. reflexivity.
Qed.

Lemma stored_window_tokens (files : list (list instance)) (w : string) :
  window_tokens w (Loader.stored (Loader.load files))
  = concat files ≫= weighted_windows w.
Proof.
  rewrite load_stored.
  induction (concat files) as [|i l IH]; [reflexivity|].
  change ((i :: l) ≫= expansion) with (expansion i ++ (l ≫= expansion)).
  change ((i :: l) ≫= weighted_windows w)
    with (weighted_windows w i ++ (l ≫= weighted_windows w)).
  rewrite window_tokens_app, IH. f_equal.
  unfold expansion, weighted_windows.
  destruct (last _) as [id|] eqn:Hlast.
  - rewrite window_tokens_replicate. reflexivity.
  - apply last_None in Hlast. rewrite Hlast. destruct (decide _); reflexivity.
Qed.

Lemma occurrences_bind {A} (f : A -> list string) (t : string) (l : list A) :
  occurrences t (l ≫= f) = sum_list (map (fun i => occurrences t (f i)) l).
Proof.
  induction l as [|i l IH]; [reflexivity|].
  change ((i :: l) ≫= f) with (f i ++ (l ≫= f)).
  cbn [map sum_list]. rewrite <- IH. unfold occurrences.
  rewrite filter_app, length_app. reflexivity.
Qed.

Lemma occurrences_filter_out (P : string -> Prop) `{forall x, Decision (P x)} a l :
  ~ P a -> occurrences a (filter P l) = 0.
Proof.
  intros Ha. unfold occurrences.
  induction l as [|x l IH]; [reflexivity|].
  rewrite (filter_cons P). destruct (decide (P x)) as [Hx|Hx]; [|exact IH].
  rewrite filter_cons, decide_False by (intros ->; contradiction). exact IH.
Qed.

(** X18: the frequencies behind a vocabulary weight every corpus instance
    by its number of senses: the list [lemmas_for_class] that cell 19
    collects for a word is made of the content words of the windows of
    each corpus instance of that word, repeated once per sense (cell 6
    stores the instance once per sense), and the count that
    [FreqDist(lemmas_for_class)] records for a content word is the sum of
    its occurrences in those repeated windows. *)
Theorem vocabulary_counts_instances_per_sense (stopwords : list string)
    (files : list (list instance)) (w : string) (lemmas_for_class : list string) :
  lemmas_loop stopwords w (Loader.stored (Loader.load files)) [] = Some lemmas_for_class ->
  lemmas_for_class = filter (is_content stopwords) (concat files ≫= weighted_windows w)
  /\ forall t,
       count_of (FreqDist.of_samples lemmas_for_class) t
       = if decide (is_content stopwords t) then
           sum_list (map (fun i => occurrences t (weighted_windows w i)) (concat files))
         else 0.
Proof.
  intros Hloop%lemmas_loop_spec. rewrite app_nil_l, stored_window_tokens in Hloop.
  split; [exact Hloop|]. intros t. rewrite of_samples_count, Hloop.
  destruct (decide (is_content stopwords t)) as [Hc|Hc].
  - rewrite occurrences_filter by assumption. apply occurrences_bind.
  - apply occurrences_filter_out. assumption.
Qed.

Lemma vocabulary_counts_instances_per_sense_witness :
  count_of (FreqDist.of_samples ["telephone"; "open"; "telephone"; "open"]) "telephone" = 2.
Proof.
  destruct (vocabulary_counts_instances_per_sense ["the"] [[two_sense_instance]] "line-n"
              ["telephone"; "open"; "telephone"; "open"]) as [_ H]; [reflexivity|].
  rewrite H. reflexivity.
Defined.

(** ** Cell 19: independence of the words *)

Lemma lemmas_loop_own_instances stopwords classword instances acc :
  lemmas_loop stopwords classword instances acc
  = lemmas_loop stopwords classword
      (filter (fun inst => SensevalInstance.word inst = classword) instances) acc.
Proof.
  revert acc. induction instances as [|inst rest IH]; intros acc; [reflexivity|].
  rewrite filter_cons. cbn [lemmas_loop].
  destruct (String.eqb_spec classword (SensevalInstance.word inst)) as [Hw|Hw].
  - rewrite decide_True by auto. cbn [lemmas_loop].
    rewrite (proj2 (String.eqb_eq _ _) Hw).
    destruct (extract_context _ _ _) as [[l r]|]; [|reflexivity].
    cbn [mbind option_bind]. apply IH.
  - rewrite decide_False by auto. apply IH.
Qed.

(** X19: the vocabulary of a word depends on the instances of that word
    only: instances of other words neither change it nor make its
    construction fail, whatever their contexts. *)
Theorem vocabulary_depends_on_own_instances (stopwords : list string) (classword : string)
    (instances others : list instance) :
  cooccurrences_of stopwords classword instances
  = cooccurrences_of stopwords classword
      (filter (fun inst => SensevalInstance.word inst = classword) instances)
  /\ (Forall (fun inst => SensevalInstance.word inst <> classword) others ->
      cooccurrences_of stopwords classword (others ++ instances)
      = cooccurrences_of stopwords classword instances).
Proof.
  unfold cooccurrences_of. split.
  - rewrite lemmas_loop_own_instances. reflexivity.
  - intros Hothers. rewrite lemmas_loop_own_instances.
    rewrite (lemmas_loop_own_instances _ _ instances), filter_app.
    replace (filter (fun inst => SensevalInstance.word inst = classword) others) with
      (@nil instance); [reflexivity|].
    symmetry. induction Hothers as [|o others Ho _ IH]; [reflexivity|].
    rewrite filter_cons, decide_False by assumption. exact IH.
Qed.

Lemma vocabulary_depends_on_own_instances_witness :
  cooccurrences_of ["the"; "a"] "bass-n"
    ([SensevalInstance.mk "line-n" 0 [("line", "NN"); (" ", "NN")] (SensesStr "cord")]
     ++ bass_windows)
  = Some ["player"; "guitar"; "sound"].
Proof.
  rewrite (proj2 (vocabulary_depends_on_own_instances ["the"; "a"] "bass-n" bass_windows
             [SensevalInstance.mk "line-n" 0 [("line", "NN"); (" ", "NN")] (SensesStr "cord")])).
  - reflexivity.
  - repeat constructor. discriminate.
Defined.

(** ** Cell 31: how many records reach the classifier *)

Lemma cell23_loop_keys label_sets instances d g d' g' :
  cell23_loop label_sets instances d g = Some (d', g') ->
  (forall l, l ∈ label_sets ->
     l.1 ∈ Dict.keys (train_set_per_class d) /\ l.1 ∈ Dict.keys (test_set_per_class d)) ->
  Dict.keys (train_set_per_class d') = Dict.keys (train_set_per_class d)
  /\ Dict.keys (test_set_per_class d') = Dict.keys (test_set_per_class d).
Proof.
  revert d g. induction label_sets as [|l rest IH]; intros d g.
  - simpl. intros [= <- <-] _. auto.
  - cbn [cell23_loop].
    destruct (feature_loop l _ instances []) as [fs|]; [|discriminate].
    cbn [mbind option_bind].
    destruct (Random.shuffle fs g) as [fs' g1].
    destruct (per_word_split fs') as [tr0 te0].
    intros Hloop Hkeys. destruct (Hkeys l) as [Hk1 Hk2]; [left|].
    destruct (IH _ _ Hloop) as [H1 H2].
    + intros l0 Hl0. cbn [train_set_per_class test_set_per_class].
      rewrite !dict_keys_extend by assumption. apply Hkeys. right. exact Hl0.
    + cbn [train_set_per_class test_set_per_class] in H1, H2.
      rewrite !dict_keys_extend in H1, H2 by assumption. auto.
Qed.

Lemma sum_map_cons {A} (h : A -> nat) x l :
  sum_list (map h (x :: l)) = h x + sum_list (map h l).
Proof. reflexivity. Qed.

Lemma labels_of_word_cons (f : label -> nat) w l ls :
  sum_list (map f (labels_of_word w (l :: ls)))
  = (if decide (l.1 = w) then f l else 0) + sum_list (map f (labels_of_word w ls)).
Proof.
  unfold labels_of_word. rewrite filter_cons.
  destruct (decide (l.1 = w)); reflexivity.
Qed.

Lemma sum_by_word_step (f : label -> nat) (ws : list string) l ls :
  NoDup ws ->
  sum_list (map (fun w => sum_list (map f (labels_of_word w (l :: ls)))) ws)
  = (if decide (l.1 ∈ ws) then f l else 0)
    + sum_list (map (fun w => sum_list (map f (labels_of_word w ls))) ws).
Proof.
  induction 1 as [|w ws Hw Hnd IH].
  - rewrite decide_False by (intros H; inversion H). reflexivity.
  - rewrite !sum_map_cons, IH, labels_of_word_cons.
    destruct (decide (l.1 = w)) as [Heq|Hne].
    + rewrite (decide_True (P := l.1 ∈ w :: ws)) by (rewrite Heq; left).
      rewrite decide_False by (rewrite Heq; exact Hw). lia.
    + destruct (decide (l.1 ∈ ws)) as [Hin|Hout].
      * rewrite (decide_True (P := l.1 ∈ w :: ws)) by (right; exact Hin). lia.
      * rewrite (decide_False (P := l.1 ∈ w :: ws)); [lia|].
        intros [H|H]%elem_of_cons; contradiction.
Qed.

Lemma sum_by_word (f : label -> nat) (ws : list string) (ls : list label) :
  NoDup ws ->
  (forall l, l ∈ ls -> l.1 ∈ ws) ->
  sum_list (map (fun w => sum_list (map f (labels_of_word w ls))) ws)
  = sum_list (map f ls).
Proof.
  intros Hnd. induction ls as [|l ls IH]; intros Hin.
  - clear. induction ws as [|w ws IH]; [reflexivity|]. cbn. exact IH.
  - rewrite sum_by_word_step by assumption.
    rewrite decide_True by (apply Hin; left).
    rewrite IH by (intros l0 Hl0; apply Hin; right; exact Hl0). reflexivity.
Qed.

Lemma sum_list_lengths {A} (f g : string -> list A) (h : string -> nat) ws :
  (forall w, length (f w) + length (g w) = h w) ->
  length (concat (map f ws)) + length (concat (map g ws)) = sum_list (map h ws).
Proof.
  intros H. induction ws as [|w ws IH]; [reflexivity|].
  cbn [map concat sum_list]. rewrite !length_app, <- IH, <- (H w). unfold id. lia.
Qed.

(** X20: the merged training and test sets hold, together, as many
    records as instances are selected over all labels minus one for every
    label that has a selected instance, and the merged test set is a
    fifth of that total, rounded down. *)
Theorem merged_sets_total (stopwords : list string) (files : list (list instance))
    (g : Random.state) (d : dicts) (train_set test_set : list item) :
  notebook stopwords files g = Some (d, (train_set, test_set)) ->
  let label_sets := Loader.label_sets (Loader.load files) in
  let instances := Loader.stored (Loader.load files) in
  let total := sum_list (map (fun l => selected_count l instances - 1) label_sets) in
  length train_set + length test_set = total
  /\ length test_set = total / 5.
Proof.
  intros Hnb. cbn zeta.
  pose proof Hnb as (d0 & g' & Hcell & Hloop & Hm)%notebook_inv.
  set (label_sets := Loader.label_sets (Loader.load files)) in *.
  set (instances := Loader.stored (Loader.load files)) in *.
  assert (Hkeys0 : Dict.keys (train_set_per_class d0) = remove_dups (map fst label_sets)
                   /\ Dict.keys (test_set_per_class d0) = remove_dups (map fst label_sets)).
  { unfold cell19 in Hcell.
    destruct (cell19_loop_keys _ _ _ _ _ Hcell) as (_ & H2 & H3 & _).
    - apply NoDup_remove_dups.
    - intros k _. cbn. repeat split; intros H; inversion H.
    - auto. }
  destruct Hkeys0 as [Hk1 Hk2].
  destruct (cell23_loop_keys _ _ _ _ _ _ Hloop) as [Hk1' Hk2'].
  { intros l Hl. rewrite Hk1, Hk2.
    split; apply elem_of_remove_dups, list_elem_of_fmap; eauto. }
  assert (Hsum : length (merge_values (train_set_per_class d))
                 + length (merge_values (test_set_per_class d))
                 = sum_list (map (fun l => selected_count l instances - 1) label_sets)).
  { rewrite !merge_values_concat, Hk1', Hk2', Hk1, Hk2.
    rewrite (sum_list_lengths _ _
               (fun w => sum_list (map (fun l => selected_count l instances - 1)
                                       (labels_of_word w label_sets)))).
    - apply sum_by_word; [apply NoDup_remove_dups|].
      intros l Hl. apply elem_of_remove_dups, list_elem_of_fmap. eauto.
    - intros w. apply (notebook_per_word_sets _ _ _ _ _ w Hnb). }
  unfold cell31 in Hm. rewrite merged_split_eq in Hm. cbn zeta in Hm.
  pose proof (shuffle_Permutation
                (merge_values (train_set_per_class d) ++ merge_values (test_set_per_class d))
                g') as Hperm.
  set (total := (Random.shuffle _ g').1) in *.
  assert (Hlen : length total
                 = sum_list (map (fun l => selected_count l instances - 1) label_sets)).
  { rewrite Hperm, length_app. exact Hsum. }
  injection Hm as -> ->. rewrite length_drop, length_take, Hlen.
  set (n := sum_list _).
  assert (n / 5 <= n) by (apply Nat.Div0.div_le_upper_bound; lia).
  change (Nat.divmod n 4 0 4).1 with (n / 5). lia.
Qed.

Lemma merged_sets_total_witness :
  exists d train_set test_set,
    notebook [] bass_corpus identity_draws = Some (d, (train_set, test_set))
    /\ length train_set + length test_set = 5
    /\ length test_set = 1.
Proof.
  destruct (notebook [] bass_corpus identity_draws) as [[d [tr te]]|] eqn:Hnb;
    [|vm_compute in Hnb; discriminate Hnb].
  exists d, tr, te. split; [reflexivity|].
  exact (merged_sets_total [] bass_corpus identity_draws d tr te Hnb).
Defined.
